(** * Study Buddy: ingestion and retrieval pipeline

    A shallow embedding of the backend of the study-buddy agent
    (text normalisation, chunking, keyword retrieval, PDF page loop and the
    in-memory store) together with the properties stated about it.

    Conventions of the embedding:
    - a Python [str] is a list of characters; characters are the code
      points 0..255 ([ascii]), classified as Python classifies them
      ([str.isspace], [str.isalnum], [str.lower]);
    - a Python [int] is a [Z]; lengths are [nat] and are injected into [Z]
      where the source compares them with an [int];
    - a generator is the list of the values it yields, with a flag telling
      whether it was exhausted, when the source has a [while] loop;
    - a function that may raise returns a [result]: [Ok] with the value,
      or [Raise] with the error. *)

From Stdlib Require Import Ascii String.
From Stdlib Require Import List ZArith Lia Bool Arith.
From Stdlib Require Import Permutation Sorted QArith.
From Stdlib Require Import DecimalString.
Import ListNotations.
Close Scope Q_scope.
Open Scope nat_scope.

(* ================================================================== *)
(** * Part I: the embedding                                            *)
(* ================================================================== *)

(** ** Python strings *)

Module PyStr.

Definition str := list ascii.

(** String literals of the source, written as Rocq strings. *)
Definition lit (s : string) : str := list_ascii_of_string s.

Definition len (t : str) : Z := Z.of_nat (length t).

Definition ord (c : ascii) : N := N_of_ascii c.

Definition in_range (lo hi : N) (c : ascii) : bool :=
  (N.leb lo (ord c) && N.leb (ord c) hi)%bool.

(** [str.isspace] on one character (also the class [\s] of [re]). *)
Definition isspace (c : ascii) : bool :=
  in_range 9 13 c || in_range 28 32 c
  || N.eqb (ord c) 133 || N.eqb (ord c) 160.

(** [str.isalnum] on one character. *)
Definition isalnum (c : ascii) : bool :=
  in_range 48 57 c || in_range 65 90 c || in_range 97 122 c
  || N.eqb (ord c) 170 || in_range 178 179 c || N.eqb (ord c) 181
  || in_range 185 186 c || in_range 188 190 c
  || in_range 192 214 c || in_range 216 246 c || in_range 248 255 c.

(** [str.lower] on one character; on the code points 0..255 it gives one
    character for each character. *)
Definition lower_char (c : ascii) : ascii :=
  if in_range 65 90 c
     || (in_range 192 222 c && negb (N.eqb (ord c) 215))
  then ascii_of_N (ord c + 32) else c.

Definition lower (t : str) : str := map lower_char t.

Definition nonempty {A} (l : list A) : bool :=
  match l with [] => false | _ :: _ => true end.

Fixpoint takewhile {A} (p : A -> bool) (l : list A) : list A :=
  match l with
  | [] => []
  | x :: r => if p x then x :: takewhile p r else []
  end.

Fixpoint dropwhile {A} (p : A -> bool) (l : list A) : list A :=
  match l with
  | [] => []
  | x :: r => if p x then dropwhile p r else l
  end.

Definition lstrip (t : str) : str := dropwhile isspace t.
Definition rstrip (t : str) : str := rev (dropwhile isspace (rev t)).

(** [str.strip()] *)
Definition strip (t : str) : str := rstrip (lstrip t).

(** [sep.join(parts)] *)
Fixpoint join (sep : str) (parts : list str) : str :=
  match parts with
  | [] => []
  | [p] => p
  | p :: rest => p ++ sep ++ join sep rest
  end.

(** [str.split()] without arguments: the maximal runs of characters that
    are not whitespace, in order.  [cur] is the run being read. *)
Fixpoint split_from (cur : str) (t : str) : list str :=
  match t with
  | [] => if nonempty cur then [cur] else []
  | c :: r =>
      if isspace c
      then (if nonempty cur then cur :: split_from [] r
            else split_from [] r)
      else split_from (cur ++ [c]) r
  end.

Definition split (t : str) : list str := split_from [] t.

Fixpoint startswith (t w : str) {struct w} : bool :=
  match w, t with
  | [], _ => true
  | _ :: _, [] => false
  | a :: w', b :: t' => Ascii.eqb a b && startswith t' w'
  end.

(** [w in t] on strings: [w] occurs in [t] as a contiguous substring. *)
Fixpoint contains (t w : str) : bool :=
  startswith t w ||
  match t with
  | [] => false
  | _ :: t' => contains t' w
  end.

(** An index of a slice, as Python normalises it against a length [n]. *)
Definition slice_index (n i : Z) : Z :=
  if (i <? 0)%Z then Z.max 0 (i + n) else Z.min i n.

(** [l[lo:hi]] *)
Definition slice {A} (l : list A) (lo hi : Z) : list A :=
  let n := Z.of_nat (length l) in
  let a := slice_index n lo in
  let b := slice_index n hi in
  firstn (Z.to_nat (b - a)) (skipn (Z.to_nat a) l).

(** [l[:hi]] *)
Definition slice_to {A} (l : list A) (hi : Z) : list A :=
  slice l 0 hi.

End PyStr.
Import PyStr.

(** ** backend/utils/text_clean.py *)

Module TextClean.

Definition is_blank (c : ascii) : bool :=
  Ascii.eqb c " " || Ascii.eqb c "009".

Definition is_newline (c : ascii) : bool := Ascii.eqb c "010".

(** [re.sub(r"[ \t]+", " ", t)]: every maximal run of spaces and tabs is
    replaced by one space.  [in_run] tells that the previous character
    belonged to the run being replaced. *)
Fixpoint sub_blank_runs (in_run : bool) (t : str) : str :=
  match t with
  | [] => []
  | c :: r =>
      if is_blank c
      then (if in_run then sub_blank_runs true r
            else " "%char :: sub_blank_runs true r)
      else c :: sub_blank_runs false r
  end.

(** [re.sub(r"\n{3,}", "\n\n", t)]: every maximal run of three or more
    newlines is replaced by two newlines; shorter runs are kept.  [seen]
    counts the newlines of the current run already read. *)
Fixpoint sub_newline_runs (seen : nat) (t : str) : str :=
  match t with
  | [] => []
  | c :: r =>
      if is_newline c
      then (if seen <? 2 then c :: sub_newline_runs (S seen) r
            else sub_newline_runs (S seen) r)
      else c :: sub_newline_runs 0 r
  end.

Definition clean_text (t : str) : str :=
  match t with
  | [] => []
  | _ =>
      let t1 := sub_blank_runs false t in
      let t2 := sub_newline_runs 0 t1 in
      strip t2
  end.

End TextClean.
Import TextClean.

(** ** backend/utils/chunking.py *)

Module Chunking.

Definition is_sentence_end (c : ascii) : bool :=
  Ascii.eqb c "." || Ascii.eqb c "!" || Ascii.eqb c "?".

(** A match of [sentence_endings], the pattern [([.!?]+[\s\n]+)], at the
    head of [t]: the matched text and what follows it.  The marks are taken
    greedily; a shorter run of marks would be followed by a mark, not by
    whitespace, so no other match starts at the same place. *)
Definition match_sentence_ending (t : str) : option (str * str) :=
  let marks := takewhile is_sentence_end t in
  let after := dropwhile is_sentence_end t in
  let blanks := takewhile isspace after in
  if nonempty marks && nonempty blanks
  then Some (marks ++ blanks, dropwhile isspace after)
  else None.

(** [sentence_endings.split(t)] from left to right: the text before a
    match, the match (the pattern is one capturing group), and so on, ending
    with the text after the last match.  [piece] is the text read since the
    last match.  Each call consumes at least one character, so [fuel] above
    the length of [t] is never used up. *)
Fixpoint re_split (fuel : nat) (piece : str) (t : str) : list str :=
  match t with
  | [] => [piece]
  | c :: r =>
      match fuel with
      | 0 => [piece ++ t]
      | S fuel' =>
          match match_sentence_ending t with
          | Some (sep, rest) => piece :: sep :: re_split fuel' [] rest
          | None => re_split fuel' (piece ++ [c]) r
          end
      end
  end.

(** [sentence_endings.search(t)] finds a match. *)
Fixpoint re_search (t : str) : bool :=
  match t with
  | [] => false
  | _ :: r =>
      match match_sentence_ending t with
      | Some _ => true
      | None => re_search r
      end
  end.

(** The loop [for i in range(0, len(sentences) - 1, 2)]. *)
Fixpoint recombine (sentences : list str) : list str :=
  match sentences with
  | s :: sep :: rest =>
      let sentence := s ++ sep in
      if nonempty (strip sentence)
      then strip sentence :: recombine rest
      else recombine rest
  | _ => []
  end.

Definition split_into_sentences (t : str) : list str :=
  let sentences := re_split (S (length t)) [] t in
  let result := recombine sentences in
  let final := last sentences [] in
  let result :=
    if nonempty sentences && negb (re_search final)
    then (if nonempty (strip final) then result ++ [strip final]
          else result)
    else result in
  if nonempty result then result else [t].

(** What a generator has yielded, and whether it ran to its end. *)
Record generated := Generated { yielded : list str; exhausted : bool }.

(** State of the sentence loop. *)
Record sentence_state := SentenceState {
  current_chunk : list str;
  current_size : Z;
  emitted : list str
}.

(** The loop [for s in reversed(current_chunk)] that picks the sentences
    kept as overlap; it stops at the first sentence that does not fit. *)
Fixpoint overlap_loop (overlap : Z) (reversed : list str)
    (overlap_sentences : list str) (overlap_size : Z)
    : list str * Z :=
  match reversed with
  | [] => (overlap_sentences, overlap_size)
  | s :: rest =>
      if (overlap_size + len s <=? overlap)%Z
      then overlap_loop overlap rest (s :: overlap_sentences)
             (overlap_size + len s)
      else (overlap_sentences, overlap_size)
  end.

(** One turn of [for sentence in sentences]. *)
Definition sentence_step (chunk_size overlap : Z)
    (st : sentence_state) (sentence : str) : sentence_state :=
  let sentence_len := len sentence in
  let st1 :=
    if ((current_size st + sentence_len >? chunk_size)%Z
        && nonempty (current_chunk st))
    then
      let chunk_text := join (lit " ") (current_chunk st) in
      let out :=
        if nonempty (strip chunk_text)
        then emitted st ++ [strip chunk_text] else emitted st in
      let overlap_text := join (lit " ") (current_chunk st) in
      if (len overlap_text >? overlap)%Z
      then
        let '(overlap_sentences, overlap_size) :=
          overlap_loop overlap (rev (current_chunk st)) [] 0%Z in
        SentenceState overlap_sentences overlap_size out
      else SentenceState [] 0%Z out
    else st in
  SentenceState (current_chunk st1 ++ [sentence])
    (current_size st1 + sentence_len)%Z (emitted st1).

Definition sentence_chunks (t : str) (chunk_size overlap : Z)
    : list str :=
  let sentences := split_into_sentences t in
  let st := fold_left (sentence_step chunk_size overlap) sentences
              (SentenceState [] 0%Z []) in
  if nonempty (current_chunk st)
  then
    let chunk_text := join (lit " ") (current_chunk st) in
    if nonempty (strip chunk_text)
    then emitted st ++ [strip chunk_text] else emitted st
  else emitted st.

(** The loop [while start < n] of the character mode, run for at most
    [fuel] turns from the position [start]. *)
Fixpoint char_loop (fuel : nat) (t : str) (chunk_size overlap : Z)
    (start : Z) : generated :=
  let n := len t in
  if (start <? n)%Z then
    match fuel with
    | 0 => Generated [] false
    | S fuel' =>
        let end_ := Z.min n (start + chunk_size) in
        let chunk := strip (slice t start end_) in
        let out := if nonempty chunk then [chunk] else [] in
        let start1 := (end_ - overlap)%Z in
        let start2 := if (start1 <? 0)%Z then 0%Z else start1 in
        if (start2 >=? n)%Z then Generated out true
        else
          let g := char_loop fuel' t chunk_size overlap start2 in
          Generated (out ++ yielded g) (exhausted g)
    end
  else Generated [] true.

(** [chunk_text]; [fuel] bounds the turns of the [while] loop. *)
Definition chunk_text (fuel : nat) (t : str) (chunk_size overlap : Z)
    (sentence_aware : bool) : generated :=
  if (chunk_size <=? 0)%Z then Generated [t] true
  else
    let overlap :=
      if (overlap >=? chunk_size)%Z then Z.max 0 (chunk_size / 3)
      else overlap in
    if sentence_aware && (len t <? chunk_size * 100)%Z
    then Generated (sentence_chunks t chunk_size overlap) true
    else char_loop fuel t chunk_size overlap 0%Z.

Definition count_true {A} (p : A -> bool) (l : list A) : Z :=
  Z.of_nat (length (filter p l)).

Definition validate_chunk (chunk : str) (min_length : Z) : bool :=
  if negb (nonempty chunk) || negb (nonempty (strip chunk)) then false
  else if (len (strip chunk) <? min_length)%Z then false
  else
    let alphanumeric_count := count_true isalnum chunk in
    if (alphanumeric_count <? min_length / 2)%Z then false
    else true.

End Chunking.
Import Chunking.

(** ** backend/storage/in_memory_store.py *)

Module Store.

Record DocChunk := mkDocChunk {
  doc_id : str;
  doc_name : str;
  chunk_id : Z;
  text : str
}.

Definition str_eqb (a b : str) : bool :=
  if list_eq_dec ascii_dec a b then true else false.

(** A Python [dict] with string keys: the keys are distinct and keep the
    order in which they were first inserted. *)
Definition dict (V : Type) := list (str * V).

(** [d[k] = v] *)
Fixpoint dict_set {V} (k : str) (v : V) (d : dict V) : dict V :=
  match d with
  | [] => [(k, v)]
  | (k', v') :: r =>
      if str_eqb k k' then (k', v) :: r else (k', v') :: dict_set k v r
  end.

(** [d.get(k)] *)
Fixpoint dict_get {V} (k : str) (d : dict V) : option V :=
  match d with
  | [] => None
  | (k', v') :: r => if str_eqb k k' then Some v' else dict_get k r
  end.

(** [d.pop(k, None)], the popped value dropped *)
Fixpoint dict_pop {V} (k : str) (d : dict V) : dict V :=
  match d with
  | [] => []
  | (k', v') :: r => if str_eqb k k' then r else (k', v') :: dict_pop k r
  end.

Definition dict_keys {V} (d : dict V) : list str := map fst d.
Definition dict_values {V} (d : dict V) : list V := map snd d.

Record InMemoryStore := mkStore {
  docs : dict str;
  chunks : dict (list DocChunk)
}.

(** [InMemoryStore()] *)
Definition new_store : InMemoryStore := mkStore [] [].

Definition upsert_doc (self : InMemoryStore) (doc_id doc_name : str)
    (new_chunks : list DocChunk) : InMemoryStore :=
  mkStore (dict_set doc_id doc_name (docs self))
          (dict_set doc_id new_chunks (chunks self)).

Definition list_docs (self : InMemoryStore) : list (str * str) :=
  docs self.

Definition get_chunks (self : InMemoryStore) (doc_id : str)
    : list DocChunk :=
  match dict_get doc_id (chunks self) with
  | Some cs => cs
  | None => []
  end.

Definition remove_doc (self : InMemoryStore) (doc_id : str)
    : InMemoryStore :=
  mkStore (dict_pop doc_id (docs self)) (dict_pop doc_id (chunks self)).

Definition get_total_chunks (self : InMemoryStore) : nat :=
  list_sum (map (@length DocChunk) (dict_values (chunks self))).

Section MemoryUsage.

(** [sys.getsizeof] on a string depends on the interpreter. *)
Variable getsizeof : str -> nat.

Definition total_bytes (self : InMemoryStore) : nat :=
  list_sum
    (map (fun cs => list_sum (map (fun ch => getsizeof (text ch)) cs))
         (dict_values (chunks self))).

(** The quotient [total_bytes / (1024 * 1024)], as a rational. *)
Definition get_memory_usage_mb (self : InMemoryStore) : Q :=
  Qmake (Z.of_nat (total_bytes self)) 1048576.

Record doc_statistics := mkDocStatistics {
  stat_doc_id : str;
  stat_doc_name : str;
  num_chunks : nat
}.

(** The dictionary returned by [get_statistics]; [memory_mb] is the value
    that the source then rounds to two decimals. *)
Record statistics := mkStatistics {
  total_docs : nat;
  total_chunks : nat;
  memory_mb : Q;
  stat_docs : list doc_statistics
}.

Definition get_statistics (self : InMemoryStore) : statistics :=
  mkStatistics
    (length (docs self))
    (get_total_chunks self)
    (get_memory_usage_mb self)
    (map (fun kv => mkDocStatistics (fst kv) (snd kv)
                      (length (get_chunks self (fst kv))))
         (docs self)).

(** The operations of the store, and what each returns. *)
Inductive store_op :=
| UpsertDoc (doc_id doc_name : str) (new_chunks : list DocChunk)
| RemoveDoc (doc_id : str)
| GetChunks (doc_id : str)
| ListDocs
| GetTotalChunks
| GetMemoryUsageMb
| GetStatistics.

Inductive store_value :=
| VNone
| VChunks (cs : list DocChunk)
| VDocs (ds : list (str * str))
| VInt (n : nat)
| VFloat (q : Q)
| VStatistics (s : statistics).

Definition apply_op (self : InMemoryStore) (op : store_op)
    : InMemoryStore * store_value :=
  match op with
  | UpsertDoc i n cs => (upsert_doc self i n cs, VNone)
  | RemoveDoc i => (remove_doc self i, VNone)
  | GetChunks i => (self, VChunks (get_chunks self i))
  | ListDocs => (self, VDocs (list_docs self))
  | GetTotalChunks => (self, VInt (get_total_chunks self))
  | GetMemoryUsageMb => (self, VFloat (get_memory_usage_mb self))
  | GetStatistics => (self, VStatistics (get_statistics self))
  end.

(** The store after a sequence of operations. *)
Definition run_ops (ops : list store_op) (self : InMemoryStore)
    : InMemoryStore :=
  fold_left (fun s op => fst (apply_op s op)) ops self.

End MemoryUsage.

End Store.
Import Store.

(** ** backend/services/retrieval_service.py *)

Module Retrieval.

(** Scores are the floats 0.0, 1.0, 2.0, ...; they are counted in [nat]. *)
Definition score_chunk_optimized (query_tokens : list str)
    (text_lower : str) : nat :=
  fold_left
    (fun score w => if contains text_lower w then score + 1 else score)
    query_tokens 0.

(** [scored.sort(key=lambda x: x[1], reverse=True)]: the sort of Python is
    stable, also with [reverse=True]; entries with equal scores keep their
    order. *)
Fixpoint insert_desc (x : DocChunk * nat) (l : list (DocChunk * nat))
    : list (DocChunk * nat) :=
  match l with
  | [] => [x]
  | y :: r => if snd y <=? snd x then x :: l else y :: insert_desc x r
  end.

Definition sort_desc (l : list (DocChunk * nat)) : list (DocChunk * nat) :=
  fold_right insert_desc [] l.

Definition tokenize (query : str) : list str :=
  filter (fun w => 2 <? length w) (split (lower query)).

Definition score_all (query_tokens : list str) (chunks : list DocChunk)
    : list (DocChunk * nat) :=
  fold_left
    (fun scored ch =>
       let s := score_chunk_optimized query_tokens (lower (text ch)) in
       if 0 <? s then scored ++ [(ch, s)] else scored)
    chunks [].

Definition retrieve_top_k (query : str) (chunks : list DocChunk)
    (top_k : Z) : list (DocChunk * nat) :=
  let query_tokens := tokenize query in
  if negb (nonempty query_tokens) then []
  else
    let scored := score_all query_tokens chunks in
    slice_to (sort_desc scored) top_k.

End Retrieval.
Import Retrieval.

(** ** backend/loaders/pdf_loader.py *)

Module PdfLoader.

(** The errors that [read_pdf_bytes] raises: the two of
    [FileValidationError], then those of [PDFProcessingError], one per
    message. *)
Inductive pdf_error :=
| FileTooLarge
| FileEmpty
| CorruptOrInvalid
| UnableToRead
| NoPagesToProcess
| NoTextExtracted
| NoMeaningfulText
| UnexpectedError.

Inductive result (A : Type) :=
| Ok (a : A)
| Raise (e : pdf_error).
Arguments Ok {A} a.
Arguments Raise {A} e.

(** The PDF library is outside the repository: a file is given by its size
    and by what the library does with it.  [page.extract_text()] returns a
    string, returns [None], or raises. *)
Inductive extraction :=
| Extracted (t : str)
| ExtractedNone
| ExtractRaises.

(** [reader.pages[page_num]] gives a page, or raises. *)
Inductive page :=
| Page (e : extraction)
| PageUnreadable.

(** [PdfReader(file_obj)] *)
Inductive parsed :=
| RaisesPdfReadError
| RaisesOther
| Reader (pages : list page).

Record pdf_file := mkPdfFile {
  size_bytes : N;
  parse : parsed
}.

(** What a progress callback does when called: return, or raise. *)
Inductive callback_outcome := Returns | CallbackRaises.
Definition callback := Z -> Z -> callback_outcome.

(** [get_file_size_mb]: the size divided by [1024 * 1024]. *)
Definition get_file_size_mb (f : pdf_file) : Q :=
  Qmake (Z.of_N (size_bytes f)) 1048576.

Definition validate_file_size (f : pdf_file) (max_size_mb : Q)
    : result unit :=
  let size_mb := get_file_size_mb f in
  if Qlt_le_dec max_size_mb size_mb then Raise FileTooLarge
  else if Qeq_bool size_mb 0 then Raise FileEmpty
  else Ok tt.

(** The [raise] for a reader without pages sits inside the [try] and is
    caught by [except Exception], which raises the error again with the
    message of an unreadable file. *)
Definition validate_pdf_integrity (f : pdf_file) : result unit :=
  match parse f with
  | RaisesPdfReadError => Raise CorruptOrInvalid
  | RaisesOther => Raise UnableToRead
  | Reader pages =>
      if length pages =? 0 then Raise UnableToRead else Ok tt
  end.

Definition extract_text_from_page (e : extraction) : str :=
  match e with
  | Extracted t => if nonempty t then t else []
  | ExtractedNone => []
  | ExtractRaises => []
  end.

(** What [log_error] was called about. *)
Inductive log_entry :=
| LogPage (number : Z)
| LogProgressCallback.

Record loop_state := mkLoopState {
  text_parts : list str;
  failed_pages : list Z;
  log : list log_entry
}.

(** One turn of [for page_num in range(pages_to_process)]. *)
Definition page_step (progress_callback : option callback)
    (batch_size pages_to_process : Z)
    (st : loop_state) (page_num : Z) (p : page) : loop_state :=
  match p with
  | PageUnreadable =>
      mkLoopState (text_parts st) (failed_pages st ++ [(page_num + 1)%Z])
        (log st ++ [LogPage (page_num + 1)])
  | Page e =>
      let page_text := extract_text_from_page e in
      let log1 :=
        match e with
        | ExtractRaises => log st ++ [LogPage (page_num + 1)]
        | _ => log st
        end in
      let st1 :=
        if nonempty page_text && nonempty (strip page_text)
        then mkLoopState (text_parts st ++ [page_text]) (failed_pages st)
               log1
        else mkLoopState (text_parts st)
               (failed_pages st ++ [(page_num + 1)%Z]) log1 in
      let st2 :=
        match progress_callback with
        | Some cb =>
            match cb (page_num + 1)%Z pages_to_process with
            | Returns => st1
            | CallbackRaises =>
                mkLoopState (text_parts st1) (failed_pages st1)
                  (log st1 ++ [LogProgressCallback])
            end
        | None => st1
        end in
      (* [(page_num + 1) % batch_size] raises when [batch_size] is 0, and
         the [except] of the loop records the page as failed *)
      if (batch_size =? 0)%Z
      then mkLoopState (text_parts st2)
             (failed_pages st2 ++ [(page_num + 1)%Z])
             (log st2 ++ [LogPage (page_num + 1)])
      else st2
  end.

Fixpoint page_loop (progress_callback : option callback)
    (batch_size pages_to_process : Z)
    (st : loop_state) (page_num : Z) (pages : list page) : loop_state :=
  match pages with
  | [] => st
  | p :: rest =>
      page_loop progress_callback batch_size pages_to_process
        (page_step progress_callback batch_size pages_to_process
           st page_num p)
        (page_num + 1)%Z rest
  end.

Definition blank_line : str := ["010"; "010"]%char.

(** The end of [read_pdf_bytes], after the loop. *)
Definition finish_pdf (text_parts : list str) : result str :=
  if negb (nonempty text_parts) then Raise NoTextExtracted
  else
    let full_text := join blank_line text_parts in
    let cleaned_text := clean_text full_text in
    if negb (nonempty cleaned_text)
       || (len (strip cleaned_text) <? 10)%Z
    then Raise NoMeaningfulText
    else Ok cleaned_text.

Definition pages_to_process (total_pages : Z) (max_pages : option Z) : Z :=
  match max_pages with
  | Some m => if (m =? 0)%Z then total_pages else Z.min total_pages m
  | None => total_pages
  end.

Definition read_pdf_bytes (file_obj : pdf_file) (max_size_mb : Q)
    (max_pages : option Z) (progress_callback : option callback)
    (batch_size : Z) : result str :=
  match validate_file_size file_obj max_size_mb with
  | Raise e => Raise e
  | Ok _ =>
      match validate_pdf_integrity file_obj with
      | Raise e => Raise e
      | Ok _ =>
          match parse file_obj with
          | Reader pages =>
              let total_pages := Z.of_nat (length pages) in
              let to_process := pages_to_process total_pages max_pages in
              if (to_process =? 0)%Z then Raise NoPagesToProcess
              else
                let st :=
                  page_loop progress_callback batch_size to_process
                    (mkLoopState [] [] []) 0%Z
                    (firstn (Z.to_nat to_process) pages) in
                finish_pdf (text_parts st)
          | _ => Raise UnexpectedError
          end
      end
  end.

End PdfLoader.
Import PdfLoader.

(** ** backend/utils/file_validator.py *)

Module FileValidator.

(** A [bytes] value: a list of bytes. *)
Definition bytes := list ascii.

(** The three messages of [FileValidationError] raised by the checks
    below. *)
Inductive file_validation_error :=
| FilenameEmpty
| FileTypeNotAllowed
| NotAPdf.

(** A check returns nothing, or raises. *)
Inductive checked :=
| Passed
| Refused (e : file_validation_error).

(** [t.endswith(suffix)] *)
Definition endswith (t suffix : str) : bool :=
  startswith (rev t) (rev suffix).

Definition default_extensions : list str := [lit ".pdf"; lit ".txt"].

Definition validate_file_type (filename : str)
    (allowed_extensions : option (list str)) : checked :=
  let allowed_extensions :=
    match allowed_extensions with
    | None => default_extensions
    | Some l => l
    end in
  if negb (nonempty filename) || negb (nonempty (strip filename))
  then Refused FilenameEmpty
  else
    let filename_lower := lower filename in
    if negb (existsb (fun ext => endswith filename_lower ext)
               allowed_extensions)
    then Refused FileTypeNotAllowed
    else Passed.

Definition validate_pdf_header (file_bytes : bytes) : bool :=
  if length file_bytes <? 5 then false
  else str_eqb (slice_to file_bytes 4) (lit "%PDF")
       || str_eqb (slice_to file_bytes 5) (lit "%PDF-").

(** [validate_pdf_content] on [bytes] or on a [BytesIO] holding them: in
    both cases the header is the first 10 bytes. *)
Definition validate_pdf_content (file_obj : bytes) : checked :=
  let header_bytes := slice_to file_obj 10 in
  if negb (validate_pdf_header header_bytes) then Refused NotAPdf
  else Passed.

End FileValidator.
Import FileValidator.

(** ** backend/services/chat_service.py *)

Module ChatService.

(** An entry of [used_excerpts]. *)
Record excerpt := mkExcerpt {
  ex_doc_name : str;
  ex_chunk_id : Z;
  ex_text : str;
  ex_score : nat
}.

Record message := mkMessage {
  role : str;
  content : str
}.

(** The language model is outside the repository: within the [try], the
    call gives the content of the first choice, or an exception whose text
    is [error_text]. *)
Inductive llm_outcome :=
| Completion (content : str)
| LlmRaises (error_text : str).

Record reply := mkReply {
  answer : str;
  used_excerpts : list excerpt
}.

(** [get_groq_client] raises [ValueError] when the key is missing, outside
    the [try]. *)
Inductive chat_result :=
| Returned (r : reply)
| RaisesMissingKey.

(** [str(n)] for a natural number. *)
Definition decimal (n : nat) : str :=
  list_ascii_of_string (NilZero.string_of_uint (Nat.to_uint n)).

Definition newline : str := ["010"%char].

(** The line [f"[Source {i+1}] (Doc: {chunk.doc_name}): {chunk.text}\n"]. *)
Definition excerpt_line (i : nat) (chunk : DocChunk) : str :=
  lit "[Source " ++ decimal (i + 1) ++ lit "] (Doc: " ++ doc_name chunk
    ++ lit "): " ++ text chunk ++ newline.

(** State of the loop over the retrieved chunks: the index of
    [enumerate], the excerpts and the context so far. *)
Record excerpt_state := mkExcerptState {
  next_index : nat;
  excerpts_so_far : list excerpt;
  context_so_far : str
}.

Definition excerpt_step (st : excerpt_state) (entry : DocChunk * nat)
    : excerpt_state :=
  let '(chunk, score) := entry in
  mkExcerptState (S (next_index st))
    (excerpts_so_far st
       ++ [mkExcerpt (doc_name chunk) (chunk_id chunk) (text chunk) score])
    (context_so_far st ++ excerpt_line (next_index st) chunk).

Definition no_excerpts_text : str :=
  lit "No relevant document excerpts found.".

Definition user_prompt (question context_text : str) : str :=
  lit "User Question: " ++ question ++ newline ++ newline
    ++ lit "DOCUMENT EXCERPTS:" ++ newline ++ context_text.

Definition answer_question_from_docs
    (system_rules groq_api_key : str)
    (create : list message -> llm_outcome)
    (question : str) (all_chunks : list DocChunk) (top_k : Z)
    : chat_result :=
  let relevant_chunks_with_scores :=
    if negb (nonempty all_chunks) then []
    else retrieve_top_k question all_chunks top_k in
  let st :=
    fold_left excerpt_step relevant_chunks_with_scores
      (mkExcerptState 0 [] []) in
  let context_text :=
    if negb (nonempty (context_so_far st)) then no_excerpts_text
    else context_so_far st in
  let messages :=
    [mkMessage (lit "system") system_rules;
     mkMessage (lit "user") (user_prompt question context_text)] in
  if negb (nonempty groq_api_key) then RaisesMissingKey
  else
    let answer :=
      match create messages with
      | Completion content => content
      | LlmRaises error_text => lit "Error generating answer: " ++ error_text
      end in
    Returned (mkReply answer (excerpts_so_far st)).

End ChatService.
Import ChatService.

(* ================================================================== *)
(** * Part II: properties                                              *)
(* ================================================================== *)

(** ** Strings: prefixes, suffixes and [strip] *)

Section ListScan.
Context {A : Type} (p : A -> bool).

Lemma takewhile_dropwhile (l : list A) :
  takewhile p l ++ dropwhile p l = l.
Proof.
  induction l as [|x l IH]; simpl; [reflexivity|].
  destruct (p x); simpl; [now rewrite IH | reflexivity].
Qed.

Lemma takewhile_all (l : list A) : forallb p (takewhile p l) = true.
Proof.
  induction l as [|x l IH]; simpl; [reflexivity|].
  destruct (p x) eqn:E; simpl; [now rewrite E | reflexivity].
Qed.

Lemma dropwhile_head (l : list A) :
  match dropwhile p l with [] => True | x :: _ => p x = false end.
Proof.
  induction l as [|x l IH]; simpl; [exact I|].
  destruct (p x) eqn:E; [exact IH | exact E].
Qed.

Lemma dropwhile_stable (l : list A) :
  match l with [] => True | x :: _ => p x = false end ->
  dropwhile p l = l.
Proof.
  destruct l as [|x l]; simpl; [reflexivity|].
  now intros ->.
Qed.

Lemma dropwhile_idem (l : list A) :
  dropwhile p (dropwhile p l) = dropwhile p l.
Proof. apply dropwhile_stable, dropwhile_head. Qed.

Lemma dropwhile_length (l : list A) :
  length (dropwhile p l) <= length l.
Proof.
  induction l as [|x l IH]; simpl; [lia|].
  destruct (p x); simpl; lia.
Qed.

End ListScan.

Lemma rstrip_split (t : str) :
  t = rstrip t ++ rev (takewhile isspace (rev t)).
Proof.
  unfold rstrip. rewrite <- rev_app_distr, takewhile_dropwhile.
  now rewrite rev_involutive.
Qed.

Lemma strip_split (t : str) :
  t = takewhile isspace t ++ strip t
        ++ rev (takewhile isspace (rev (lstrip t))).
Proof.
  unfold strip. rewrite <- rstrip_split. unfold lstrip.
  now rewrite takewhile_dropwhile.
Qed.

Lemma rstrip_idem (t : str) : rstrip (rstrip t) = rstrip t.
Proof.
  unfold rstrip. now rewrite rev_involutive, dropwhile_idem.
Qed.

Lemma lstrip_rstrip_stable (t : str) :
  lstrip t = t -> lstrip (rstrip t) = rstrip t.
Proof.
  intros H. apply dropwhile_stable.
  pose proof (rstrip_split t) as Hs.
  destruct (rstrip t) as [|c r] eqn:E; [exact I|].
  pose proof (dropwhile_head isspace t) as Hh.
  fold (lstrip t) in Hh. rewrite H, Hs in Hh. exact Hh.
Qed.

Lemma strip_head (t : str) :
  match strip t with [] => True | c :: _ => isspace c = false end.
Proof.
  unfold strip.
  rewrite <- (lstrip_rstrip_stable (lstrip t)) by apply dropwhile_idem.
  apply dropwhile_head.
Qed.

Lemma strip_idem (t : str) : strip (strip t) = strip t.
Proof.
  unfold strip.
  rewrite (lstrip_rstrip_stable (lstrip t)) by apply dropwhile_idem.
  apply rstrip_idem.
Qed.

Lemma strip_length (t : str) : length (strip t) <= length t.
Proof.
  rewrite (strip_split t) at 2. rewrite !length_app. lia.
Qed.

(** ** The text normaliser *)

Section CleanText.

(** Normal forms of the two substitutions. *)

Definition starts_blank (t : str) : bool :=
  match t with [] => false | c :: _ => is_blank c end.

Fixpoint blank_normal (t : str) : bool :=
  match t with
  | [] => true
  | c :: r =>
      (if is_blank c then Ascii.eqb c " " && negb (starts_blank r)
       else true) && blank_normal r
  end.

Fixpoint newline_normal (seen : nat) (t : str) : bool :=
  match t with
  | [] => true
  | c :: r =>
      if is_newline c then (seen <? 2) && newline_normal (S seen) r
      else newline_normal 0 r
  end.

Lemma newline_not_blank c : is_newline c = true -> is_blank c = false.
Proof.
  unfold is_newline, is_blank. intros H.
  apply Ascii.eqb_eq in H. now subst c.
Qed.

Lemma sub_blank_in_run_head t :
  starts_blank (sub_blank_runs true t) = false.
Proof.
  induction t as [|c r IH]; simpl; [reflexivity|].
  destruct (is_blank c) eqn:E; simpl; [exact IH | exact E].
Qed.

Lemma sub_blank_runs_normal t b : blank_normal (sub_blank_runs b t) = true.
Proof.
  revert b. induction t as [|c r IH]; intros b; simpl; [reflexivity|].
  destruct (is_blank c) eqn:E.
  - destruct b; [apply IH|].
    simpl. now rewrite sub_blank_in_run_head, IH.
  - simpl. now rewrite E, IH.
Qed.

Lemma sub_blank_runs_flag t :
  starts_blank t = false -> sub_blank_runs true t = sub_blank_runs false t.
Proof. destruct t as [|c r]; simpl; [reflexivity|]. now intros ->. Qed.

Lemma sub_blank_runs_fix t :
  blank_normal t = true -> sub_blank_runs false t = t.
Proof.
  induction t as [|c r IH]; simpl; [reflexivity|].
  intros H. apply andb_true_iff in H as [Hc Hr].
  destruct (is_blank c) eqn:E.
  - apply andb_true_iff in Hc as [Hsp Hnb].
    apply Ascii.eqb_eq in Hsp. apply negb_true_iff in Hnb.
    rewrite (sub_blank_runs_flag _ Hnb), (IH Hr). now subst c.
  - now rewrite (IH Hr).
Qed.

Lemma sub_newline_head t : 
  starts_blank (sub_newline_runs 0 t) = starts_blank t.
Proof.
  destruct t as [|c r]; simpl; [reflexivity|].
  destruct (is_newline c); reflexivity.
Qed.

Lemma sub_newline_keeps_blank_normal t k :
  blank_normal t = true -> blank_normal (sub_newline_runs k t) = true.
Proof.
  revert k. induction t as [|c r IH]; intros k; simpl; [reflexivity|].
  intros H. apply andb_true_iff in H as [Hc Hr].
  destruct (is_newline c) eqn:En.
  - destruct (k <? 2); [|now apply IH].
    simpl. rewrite (newline_not_blank _ En). now apply IH.
  - simpl. rewrite sub_newline_head, Hc. now apply IH.
Qed.

Lemma sub_newline_runs_normal t k :
  newline_normal (Nat.min k 2) (sub_newline_runs k t) = true.
Proof.
  revert k. induction t as [|c r IH]; intros k; simpl; [reflexivity|].
  destruct (is_newline c) eqn:En.
  - destruct (k <? 2) eqn:Ek.
    + apply Nat.ltb_lt in Ek. simpl. rewrite En.
      replace (Nat.min k 2) with k by lia.
      replace (k <? 2) with true by (symmetry; apply Nat.ltb_lt; lia).
      specialize (IH (S k)). now replace (Nat.min (S k) 2) with (S k) in IH by lia.
    + apply Nat.ltb_ge in Ek. specialize (IH (S k)).
      replace (Nat.min (S k) 2) with 2 in IH by lia.
      now replace (Nat.min k 2) with 2 by lia.
  - simpl. rewrite En. apply (IH 0).
Qed.

Lemma sub_newline_runs_fix t k :
  newline_normal k t = true -> sub_newline_runs k t = t.
Proof.
  revert k. induction t as [|c r IH]; intros k; simpl; [reflexivity|].
  destruct (is_newline c).
  - intros H. apply andb_true_iff in H as [-> Hr]. now rewrite (IH _ Hr).
  - intros H. now rewrite (IH _ H).
Qed.

Lemma newline_normal_mono t j k :
  j <= k -> newline_normal k t = true -> newline_normal j t = true.
Proof.
  revert j k. induction t as [|c r IH]; intros j k Hjk; simpl; [reflexivity|].
  destruct (is_newline c); [|trivial].
  intros H. apply andb_true_iff in H as [Hk Hr].
  apply Nat.ltb_lt in Hk. apply andb_true_iff. split.
  - apply Nat.ltb_lt. lia.
  - apply (IH (S j) (S k)); [lia | exact Hr].
Qed.

(** Both normal forms pass to contiguous pieces of a text. *)

Lemma blank_normal_app_r u v :
  blank_normal (u ++ v) = true -> blank_normal v = true.
Proof.
  induction u as [|c r IH]; simpl; [trivial|].
  intros H. apply andb_true_iff in H as [_ H]. now apply IH.
Qed.

Lemma starts_blank_app u v :
  starts_blank u = true -> starts_blank (u ++ v) = true.
Proof. destruct u; simpl; [discriminate | trivial]. Qed.

Lemma blank_normal_app_l u v :
  blank_normal (u ++ v) = true -> blank_normal u = true.
Proof.
  induction u as [|c r IH]; simpl; [trivial|].
  intros H. apply andb_true_iff in H as [Hc H].
  rewrite (IH H), andb_true_r.
  destruct (is_blank c); [|reflexivity].
  apply andb_true_iff in Hc as [-> Hnb]. simpl.
  apply negb_true_iff in Hnb. apply negb_true_iff.
  destruct (starts_blank r) eqn:E; [|reflexivity].
  now rewrite (starts_blank_app _ v E) in Hnb.
Qed.

Lemma newline_normal_app_r u v k :
  newline_normal k (u ++ v) = true -> newline_normal 0 v = true.
Proof.
  revert k. induction u as [|c r IH]; intros k; simpl.
  - apply newline_normal_mono. lia.
  - destruct (is_newline c); [|apply IH].
    intros H. apply andb_true_iff in H as [_ H]. now apply IH in H.
Qed.

Lemma newline_normal_app_l u v k :
  newline_normal k (u ++ v) = true -> newline_normal k u = true.
Proof.
  revert k. induction u as [|c r IH]; intros k; simpl; [trivial|].
  destruct (is_newline c); [|apply IH].
  intros H. apply andb_true_iff in H as [-> H]. now apply IH in H.
Qed.

Lemma strip_keeps_blank_normal t :
  blank_normal t = true -> blank_normal (strip t) = true.
Proof.
  rewrite (strip_split t) at 1. intros H.
  apply blank_normal_app_r in H. now apply blank_normal_app_l in H.
Qed.

Lemma strip_keeps_newline_normal t k :
  newline_normal k t = true -> newline_normal 0 (strip t) = true.
Proof.
  rewrite (strip_split t) at 1. intros H.
  apply newline_normal_app_r in H. now apply newline_normal_app_l in H.
Qed.

(** The two scans do what the substitutions say on a run. *)

Lemma sub_blank_runs_run (run rest : str) :
  run <> [] -> forallb is_blank run = true -> starts_blank rest = false ->
  sub_blank_runs false (run ++ rest)
  = " "%char :: sub_blank_runs false rest.
Proof.
  intros Hne Hrun Hrest.
  assert (H : forall r, forallb is_blank r = true ->
            sub_blank_runs true (r ++ rest) = sub_blank_runs false rest).
  { induction r as [|c r IH]; simpl.
    - intros _. now apply sub_blank_runs_flag.
    - intros Hc. apply andb_true_iff in Hc as [-> Hr]. now apply IH. }
  destruct run as [|c r]; [congruence|]. simpl in *.
  apply andb_true_iff in Hrun as [-> Hr]. now rewrite (H r Hr).
Qed.

Definition starts_newline (t : str) : bool :=
  match t with [] => false | c :: _ => is_newline c end.

Lemma sub_newline_runs_run (n : nat) (rest : str) :
  starts_newline rest = false ->
  sub_newline_runs 0 (repeat "010"%char n ++ rest)
  = repeat "010"%char (Nat.min n 2) ++ sub_newline_runs 0 rest.
Proof.
  intros Hrest.
  assert (Hend : forall k, sub_newline_runs k rest = sub_newline_runs 0 rest).
  { intros k. destruct rest as [|c r]; [reflexivity|]. simpl in *.
    now rewrite Hrest. }
  assert (H2 : forall m k, 2 <= k ->
            sub_newline_runs k (repeat "010"%char m ++ rest)
            = sub_newline_runs 0 rest).
  { induction m as [|m IH]; intros k Hk; simpl; [apply Hend|].
    replace (k <? 2) with false by (symmetry; apply Nat.ltb_ge; lia).
    apply IH. lia. }
  destruct n as [|[|n]]; [reflexivity | simpl; now rewrite Hend |].
  replace (Nat.min (S (S n)) 2) with 2 by lia.
  simpl. now rewrite H2 by lia.
Qed.

Lemma clean_text_stripped t : strip (clean_text t) = clean_text t.
Proof.
  destruct t as [|c r]; [reflexivity|]. unfold clean_text. apply strip_idem.
Qed.

Lemma clean_text_fixed t :
  blank_normal t = true -> newline_normal 0 t = true -> strip t = t ->
  clean_text t = t.
Proof.
  intros Hb Hn Hs. destruct t as [|c r]; [reflexivity|].
  unfold clean_text.
  now rewrite (sub_blank_runs_fix _ Hb), (sub_newline_runs_fix _ _ Hn).
Qed.

(** C7. The text normaliser is idempotent, and it maps the empty string to
    the empty string: [clean_text (clean_text x) = clean_text x] for every
    [x], and [clean_text "" = ""]. *)
Theorem clean_text_idempotent :
  (forall x : str, clean_text (clean_text x) = clean_text x)
  /\ clean_text [] = [].
Proof.
  split; [|reflexivity].
  intros x. apply clean_text_fixed.
  - destruct x as [|c r]; [reflexivity|]. unfold clean_text.
    apply strip_keeps_blank_normal, sub_newline_keeps_blank_normal,
      sub_blank_runs_normal.
  - destruct x as [|c r]; [reflexivity|]. unfold clean_text.
    apply (strip_keeps_newline_normal _ 0).
    apply (sub_newline_runs_normal _ 0).
  - apply clean_text_stripped.
Qed.

Example clean_text_example :
  clean_text (lit "  a " ++ ["009"%char] ++ lit " b"
                ++ repeat "010"%char 4 ++ lit "c ")
  = lit "a b" ++ repeat "010"%char 2 ++ lit "c".
Proof. reflexivity. Qed.

End CleanText.

(** ** The sentence splitter *)

Section ReSplit.

Lemma match_sentence_ending_parts (t sep rest : str) :
  match_sentence_ending t = Some (sep, rest) ->
  t = sep ++ rest /\ length rest < length t.
Proof.
  unfold match_sentence_ending.
  set (marks := takewhile is_sentence_end t).
  set (after := dropwhile is_sentence_end t).
  set (blanks := takewhile isspace after).
  destruct (nonempty marks && nonempty blanks) eqn:E; [|discriminate].
  intros H. injection H as <- <-.
  apply andb_true_iff in E as [Em _].
  assert (Ht : t = (marks ++ blanks) ++ dropwhile isspace after).
  { rewrite <- app_assoc. unfold blanks.
    rewrite takewhile_dropwhile. unfold marks, after.
    now rewrite takewhile_dropwhile. }
  split; [exact Ht|].
  pose proof (f_equal (@length ascii) Ht) as Hl.
  rewrite !length_app in Hl.
  destruct marks; [discriminate Em | simpl in Hl; lia].
Qed.

(** The split loses nothing: its pieces, put together, are the text. *)
Lemma re_split_concat (fuel : nat) (piece t : str) :
  concat (re_split fuel piece t) = piece ++ t.
Proof.
  revert piece t. induction fuel as [|fuel IH]; intros piece [|c r]; simpl;
    rewrite ?app_nil_r; try reflexivity.
  destruct (match_sentence_ending (c :: r)) as [[sep rest]|] eqn:E.
  - apply match_sentence_ending_parts in E as [-> _].
    simpl. now rewrite IH.
  - rewrite IH. now rewrite <- app_assoc.
Qed.

(** Fuel above the length of the text is never used up. *)
Lemma re_split_fuel (f1 f2 : nat) (piece t : str) :
  length t < f1 -> length t < f2 ->
  re_split f1 piece t = re_split f2 piece t.
Proof.
  revert f2 piece t. induction f1 as [|f1 IH]; intros f2 piece t H1 H2;
    [lia|].
  destruct f2 as [|f2]; [lia|]. destruct t as [|c r]; [reflexivity|].
  simpl in *.
  destruct (match_sentence_ending (c :: r)) as [[sep rest]|] eqn:E.
  - apply match_sentence_ending_parts in E as [_ Hlen]. simpl in Hlen.
    do 2 f_equal. apply IH; lia.
  - apply IH; lia.
Qed.

End ReSplit.

(** ** Whitespace-only texts *)

Section Blank.

Lemma dropwhile_nil {A} (p : A -> bool) (l : list A) :
  dropwhile p l = [] <-> forallb p l = true.
Proof.
  induction l as [|x l IH]; simpl; [tauto|].
  destruct (p x); simpl; [exact IH|]. split; discriminate.
Qed.

Lemma forallb_rev {A} (p : A -> bool) (l : list A) :
  forallb p (rev l) = forallb p l.
Proof.
  induction l as [|x l IH]; simpl; [reflexivity|].
  rewrite forallb_app, IH. simpl. rewrite andb_true_r. apply andb_comm.
Qed.

Lemma rstrip_nil (t : str) : rstrip t = [] <-> forallb isspace t = true.
Proof.
  unfold rstrip. rewrite <- (forallb_rev isspace t), <- dropwhile_nil.
  split; intros H.
  - apply (f_equal (@rev ascii)) in H. now rewrite rev_involutive in H.
  - now rewrite H.
Qed.

(** [t.strip()] is empty exactly when [t] is empty or whitespace only. *)
Lemma strip_nil (t : str) : strip t = [] <-> forallb isspace t = true.
Proof.
  unfold strip. rewrite rstrip_nil. unfold lstrip.
  rewrite <- (takewhile_dropwhile isspace t) at 2.
  rewrite forallb_app, takewhile_all. reflexivity.
Qed.

Lemma nonempty_true {A} (l : list A) : nonempty l = true <-> l <> [].
Proof. destruct l; simpl; split; congruence. Qed.

Lemma nonempty_false {A} (l : list A) : nonempty l = false <-> l = [].
Proof. destruct l; simpl; split; congruence. Qed.

Lemma strip_nonempty (t : str) :
  nonempty (strip t) = true <-> forallb isspace t = false.
Proof.
  rewrite nonempty_true, strip_nil. destruct (forallb isspace t); split;
    congruence.
Qed.

(** A trimmed, non-empty text is neither empty nor whitespace only. *)
Lemma stripped_chunk_visible (t : str) :
  nonempty (strip t) = true ->
  strip t <> [] /\ forallb isspace (strip t) = false.
Proof.
  intros H. split; [now apply nonempty_true|].
  apply strip_nonempty. now rewrite strip_idem.
Qed.

End Blank.

(** Decides a boolean comparison of integers by arithmetic. *)
Ltac zbool :=
  rewrite ?Z.geb_leb, ?Z.gtb_ltb;
  first [ apply Z.leb_le | apply Z.leb_gt | apply Z.ltb_lt | apply Z.ltb_ge ];
  lia.

(** ** The character mode of the chunker: termination *)

Section CharMode.

Variables (t : str) (chunk_size overlap : Z).

(** With a positive overlap the window start never reaches the end of a
    non-empty text: [end_ <= n] gives [end_ - overlap < n], so neither the
    [break] nor the loop test ever stops the loop. *)
Lemma char_loop_stuck (fuel : nat) (start : Z) :
  (0 < overlap)%Z -> (0 <= start < len t)%Z ->
  exhausted (char_loop fuel t chunk_size overlap start) = false.
Proof.
  intros Hov. revert start.
  induction fuel as [|fuel IH]; intros start Hs; simpl.
  - replace (start <? len t)%Z with true by (symmetry; apply Z.ltb_lt; lia).
    reflexivity.
  - replace (start <? len t)%Z with true by (symmetry; apply Z.ltb_lt; lia).
    set (end_ := Z.min (len t) (start + chunk_size)).
    set (start2 := if (end_ - overlap <? 0)%Z then 0%Z
                   else (end_ - overlap)%Z).
    assert (H2 : (0 <= start2 < len t)%Z).
    { unfold start2. destruct (end_ - overlap <? 0)%Z eqn:E.
      - lia.
      - apply Z.ltb_ge in E. unfold end_ in *. lia. }
    replace (start2 >=? len t)%Z with false by (symmetry; zbool).
    simpl. now apply IH.
Qed.

(** Without overlap the start advances by [chunk_size] at every turn. *)
Lemma char_loop_exhausts (fuel : nat) (start : Z) :
  (0 < chunk_size)%Z -> overlap = 0%Z -> (0 <= start)%Z ->
  (len t - start < Z.of_nat fuel)%Z ->
  exhausted (char_loop fuel t chunk_size overlap start) = true.
Proof.
  intros Hcs Hov. subst overlap. revert start.
  induction fuel as [|fuel IH]; intros start H0 Hf; simpl.
  - replace (start <? len t)%Z with false
      by (symmetry; apply Z.ltb_ge; lia).
    reflexivity.
  - destruct (start <? len t)%Z eqn:Es; [|reflexivity].
    apply Z.ltb_lt in Es.
    set (end_ := Z.min (len t) (start + chunk_size)).
    assert (He : (start < end_)%Z) by (unfold end_; lia).
    replace (end_ - 0 <? 0)%Z with false
      by (symmetry; apply Z.ltb_ge; lia).
    destruct (end_ - 0 >=? len t)%Z; [reflexivity|]. simpl.
    apply IH; lia.
Qed.

End CharMode.

Lemma chunk_text_char_mode t chunk_size overlap fuel :
  (0 < chunk_size)%Z -> (overlap < chunk_size)%Z ->
  chunk_text fuel t chunk_size overlap false
  = char_loop fuel t chunk_size overlap 0%Z.
Proof.
  intros Hcs Hov. unfold chunk_text.
  replace (chunk_size <=? 0)%Z with false
    by (symmetry; apply Z.leb_gt; lia).
  replace (overlap >=? chunk_size)%Z with false by (symmetry; zbool).
  reflexivity.
Qed.

(** In the range of the parameters the character mode runs forever on
    every non-empty text as soon as the overlap is positive. *)
Lemma chunk_text_char_mode_diverges t chunk_size overlap :
  (0 < chunk_size)%Z -> (0 < overlap < chunk_size)%Z -> t <> [] ->
  forall fuel,
    exhausted (chunk_text fuel t chunk_size overlap false) = false.
Proof.
  intros Hcs Hov Ht fuel. rewrite chunk_text_char_mode by lia.
  apply char_loop_stuck; [lia|].
  unfold len. destruct t; [congruence | simpl; lia].
Qed.

(** It terminates when the overlap is zero. *)
Lemma chunk_text_char_mode_no_overlap t chunk_size :
  (0 < chunk_size)%Z ->
  exhausted (chunk_text (S (length t)) t chunk_size 0 false) = true.
Proof.
  intros Hcs. rewrite chunk_text_char_mode by lia.
  apply char_loop_exhausts; unfold len; lia.
Qed.

Lemma char_mode_tail_repeats k :
  yielded (char_loop k (lit "abcdefghij") 4 1 9) = repeat (lit "j") k.
Proof.
  induction k as [|k IH]; [reflexivity|].
  change (yielded (char_loop (S k) (lit "abcdefghij") 4 1 9))
    with (lit "j" :: yielded (char_loop k (lit "abcdefghij") 4 1 9)).
  now rewrite IH.
Qed.

(** C1 (the code does not do this). On the text ["abcdefghij"] with
    [chunk_size = 4] and [overlap = 1] the character mode never terminates:
    whatever number of turns the loop is given, the generator is not
    exhausted, and after ["abcd"], ["defg"], ["ghij"] it yields ["j"] once
    per turn. There is no guard that turns a zero advance into an advance
    of 1. *)
Theorem chunk_text_char_mode_loops_forever :
  (forall fuel : nat,
     exhausted (chunk_text fuel (lit "abcdefghij") 4 1 false) = false)
  /\ (forall k : nat,
        yielded (chunk_text (3 + k) (lit "abcdefghij") 4 1 false)
        = [lit "abcd"; lit "defg"; lit "ghij"] ++ repeat (lit "j") k).
Proof.
  split.
  - apply chunk_text_char_mode_diverges; [lia | lia | discriminate].
  - intros k. rewrite chunk_text_char_mode by lia.
    change (yielded (char_loop (3 + k) (lit "abcdefghij") 4 1 0))
      with ([lit "abcd"; lit "defg"; lit "ghij"]
              ++ yielded (char_loop k (lit "abcdefghij") 4 1 9)).
    now rewrite char_mode_tail_repeats.
Qed.

(** ** The sentence mode of the chunker *)

Definition sum_len (l : list str) : Z :=
  fold_right (fun s acc => (len s + acc)%Z) 0%Z l.

(** Length of the longest sentence of a text. *)
Definition longest_sentence (t : str) : Z :=
  fold_right Z.max 0%Z (map len (split_into_sentences t)).

Section SentenceMode.

Variables (sentences : list str) (chunk_size overlap longest : Z).

Hypothesis chunk_size_pos : (0 < chunk_size)%Z.
Hypothesis overlap_small : (overlap < chunk_size)%Z.
Hypothesis longest_bound :
  forall s, In s sentences -> (len s <= longest)%Z.

(** A chunk made of sentences: the trimmed join of a non-empty run of
    sentences whose lengths sum to at most [chunk_size + longest]. *)
Definition made_of_sentences (c : str) : Prop :=
  exists cc : list str,
    cc <> [] /\ incl cc sentences /\
    c = strip (join (lit " ") cc) /\ nonempty c = true /\
    (sum_len cc <= chunk_size + longest)%Z.

Definition sentence_inv (st : sentence_state) : Prop :=
  current_size st = sum_len (current_chunk st)
  /\ incl (current_chunk st) sentences
  /\ (current_size st <= chunk_size + longest)%Z
  /\ Forall made_of_sentences (emitted st).

Lemma len_nonneg (s : str) : (0 <= len s)%Z.
Proof. unfold len. lia. Qed.

Lemma sum_len_nonneg (l : list str) : (0 <= sum_len l)%Z.
Proof.
  induction l as [|s l IH]; simpl; [lia|]. pose proof (len_nonneg s). lia.
Qed.

Lemma sum_len_app (l1 l2 : list str) :
  sum_len (l1 ++ l2) = (sum_len l1 + sum_len l2)%Z.
Proof. induction l1 as [|s l IH]; simpl; [reflexivity | lia]. Qed.

Lemma overlap_loop_spec (rs acc : list str) (sz : Z) :
  sz = sum_len acc -> (sz <= Z.max 0 overlap)%Z ->
  incl acc sentences -> incl rs sentences ->
  let r := overlap_loop overlap rs acc sz in
  snd r = sum_len (fst r) /\ (snd r <= Z.max 0 overlap)%Z
  /\ incl (fst r) sentences.
Proof.
  revert acc sz. induction rs as [|s rs IH]; intros acc sz Hsz Hle Ha Hr;
    simpl; [tauto|].
  destruct (sz + len s <=? overlap)%Z eqn:E; [|simpl; tauto].
  apply Z.leb_le in E. apply IH.
  - simpl. lia.
  - lia.
  - intros x [<-|Hx]; [apply Hr; now left | now apply Ha].
  - intros x Hx. apply Hr. now right.
Qed.

Lemma sentence_step_inv (st : sentence_state) (s : str) :
  In s sentences -> sentence_inv st ->
  sentence_inv (sentence_step chunk_size overlap st s).
Proof.
  intros Hs (Hsz & Hin & Hb & Hem).
  pose proof (longest_bound s Hs) as HL. pose proof (len_nonneg s) as H0.
  assert (Happ : forall cc, incl cc sentences -> incl (cc ++ [s]) sentences).
  { intros cc Hcc x Hx. apply in_app_or in Hx as [Hx|[<-|[]]]; auto. }
  unfold sentence_step.
  destruct ((current_size st + len s >? chunk_size)%Z
            && nonempty (current_chunk st)) eqn:E.
  - apply andb_true_iff in E as [_ Hne].
    assert (Hem' : Forall made_of_sentences
              (if nonempty (strip (join (lit " ") (current_chunk st)))
               then emitted st ++ [strip (join (lit " ") (current_chunk st))]
               else emitted st)).
    { destruct (nonempty (strip (join (lit " ") (current_chunk st)))) eqn:En;
        [|exact Hem].
      apply Forall_app. split; [exact Hem|]. constructor; [|constructor].
      exists (current_chunk st). repeat split; auto.
      - now apply nonempty_true.
      - lia. }
    destruct (len (join (lit " ") (current_chunk st)) >? overlap)%Z.
    + pose proof (overlap_loop_spec (rev (current_chunk st)) [] 0%Z) as Ho.
      destruct (overlap_loop overlap (rev (current_chunk st)) [] 0%Z)
        as [os osz].
      simpl in Ho. destruct Ho as (Ho1 & Ho2 & Ho3);
        [reflexivity | lia | intros x [] | |].
      { intros x Hx. apply Hin. now apply in_rev. }
      repeat split; simpl; rewrite ?sum_len_app; simpl; auto; lia.
    + repeat split; simpl; auto; try lia.
      intros x [<-|[]]; exact Hs.
  - assert (Hsmall : (current_size st + len s <= chunk_size + longest)%Z).
    { apply andb_false_iff in E as [E|E].
      - rewrite Z.gtb_ltb in E. apply Z.ltb_ge in E. lia.
      - apply nonempty_false in E. rewrite Hsz, E. simpl. lia. }
    repeat split; simpl; rewrite ?sum_len_app; simpl; auto; lia.
Qed.

Lemma sentence_loop_inv (ss : list str) (st : sentence_state) :
  incl ss sentences -> sentence_inv st ->
  sentence_inv (fold_left (sentence_step chunk_size overlap) ss st).
Proof.
  revert st. induction ss as [|s ss IH]; intros st Hss Hst; simpl;
    [exact Hst|].
  apply IH.
  - intros x Hx. apply Hss. now right.
  - apply sentence_step_inv; [apply Hss; now left | exact Hst].
Qed.

End SentenceMode.

Lemma longest_sentence_bound (t s : str) :
  In s (split_into_sentences t) -> (len s <= longest_sentence t)%Z.
Proof.
  unfold longest_sentence.
  induction (split_into_sentences t) as [|x l IH]; simpl; [tauto|].
  intros [->|H]; [lia|]. apply IH in H. lia.
Qed.

Lemma longest_sentence_nonneg (t : str) : (0 <= longest_sentence t)%Z.
Proof.
  unfold longest_sentence.
  induction (map len (split_into_sentences t)); simpl; lia.
Qed.

Lemma sentence_chunks_made (t : str) (chunk_size overlap : Z) :
  (0 < chunk_size)%Z -> (overlap < chunk_size)%Z ->
  Forall (made_of_sentences (split_into_sentences t) chunk_size
            (longest_sentence t))
    (sentence_chunks t chunk_size overlap).
Proof.
  intros Hcs Hov. unfold sentence_chunks.
  set (st := fold_left _ _ _).
  assert (H : sentence_inv (split_into_sentences t) chunk_size
                (longest_sentence t) st).
  { apply sentence_loop_inv; auto using longest_sentence_bound, incl_refl.
    pose proof (longest_sentence_nonneg t).
    repeat split; simpl; auto; try lia. intros x []. }
  destruct H as (Hsz & Hin & Hb & Hem).
  destruct (nonempty (current_chunk st)) eqn:Hne; [|exact Hem].
  destruct (nonempty (strip (join (lit " ") (current_chunk st)))) eqn:En;
    [|exact Hem].
  apply Forall_app. split; [exact Hem|]. constructor; [|constructor].
  exists (current_chunk st). repeat split; auto.
  - now apply nonempty_true.
  - lia.
Qed.

Lemma join_length (cc : list str) :
  cc <> [] ->
  len (join (lit " ") cc) = (sum_len cc + (Z.of_nat (length cc) - 1))%Z.
Proof.
  induction cc as [|s cc IH]; [congruence|]. intros _.
  destruct cc as [|s' cc].
  - simpl. lia.
  - change (join (lit " ") (s :: s' :: cc))
      with (s ++ lit " " ++ join (lit " ") (s' :: cc)).
    unfold len in *. rewrite !length_app.
    change (sum_len (s :: s' :: cc))
      with (Z.of_nat (length s) + sum_len (s' :: cc))%Z.
    specialize (IH ltac:(discriminate)). simpl length in *. lia.
Qed.

Lemma made_of_sentences_length sentences chunk_size longest c :
  made_of_sentences sentences chunk_size longest c ->
  exists cc : list str,
    cc <> [] /\ incl cc sentences /\ c = strip (join (lit " ") cc)
    /\ (sum_len cc <= chunk_size + longest)%Z
    /\ (len c <= chunk_size + longest + (Z.of_nat (length cc) - 1))%Z.
Proof.
  intros (cc & Hne & Hin & Hc & _ & Hsum). exists cc. repeat split; auto.
  pose proof (join_length cc Hne) as Hj.
  pose proof (strip_length (join (lit " ") cc)) as Hs.
  subst c. unfold len in *. lia.
Qed.

(** The clamped overlap of [chunk_text] is below the chunk size. *)
Lemma clamped_overlap_small chunk_size overlap :
  (0 < chunk_size)%Z ->
  ((if (overlap >=? chunk_size)%Z then Z.max 0 (chunk_size / 3)
    else overlap) < chunk_size)%Z.
Proof.
  intros Hcs. destruct (overlap >=? chunk_size)%Z eqn:E.
  - assert (chunk_size / 3 < chunk_size)%Z by (apply Z.div_lt; lia). lia.
  - rewrite Z.geb_leb in E. apply Z.leb_gt in E. exact E.
Qed.

Lemma firstn_length_le {A} (k : nat) (l : list A) : length (firstn k l) <= k.
Proof. rewrite length_firstn. lia. Qed.

Lemma char_loop_chunks (t : str) (chunk_size overlap : Z) (fuel : nat) :
  (0 < chunk_size)%Z ->
  forall start, (0 <= start)%Z ->
  Forall (fun c => (len c <= chunk_size)%Z
                   /\ c <> [] /\ forallb isspace c = false)
    (yielded (char_loop fuel t chunk_size overlap start)).
Proof.
  intros Hcs. induction fuel as [|fuel IH]; intros start H0; simpl.
  - destruct (start <? len t)%Z; constructor.
  - destruct (start <? len t)%Z eqn:Es; [|constructor].
    apply Z.ltb_lt in Es.
    set (end_ := Z.min (len t) (start + chunk_size)).
    set (chunk := strip (slice t start end_)).
    set (start2 := if (end_ - overlap <? 0)%Z then 0%Z
                   else (end_ - overlap)%Z).
    assert (H2 : (0 <= start2)%Z).
    { unfold start2. destruct (end_ - overlap <? 0)%Z eqn:E; [lia|].
      apply Z.ltb_ge in E. exact E. }
    assert (Hout : Forall (fun c => (len c <= chunk_size)%Z
                     /\ c <> [] /\ forallb isspace c = false)
                     (if nonempty chunk then [chunk] else [])).
    { destruct (nonempty chunk) eqn:En; constructor; [|constructor].
      split; [|now apply stripped_chunk_visible].
      pose proof (strip_length (slice t start end_)) as Hl.
      assert (length (slice t start end_) <= Z.to_nat chunk_size).
      { unfold slice, slice_index. fold (len t).
        replace (start <? 0)%Z with false by (symmetry; zbool).
        replace (end_ <? 0)%Z with false
          by (symmetry; unfold end_; zbool).
        etransitivity; [apply firstn_length_le|]. unfold end_. lia. }
      fold chunk in Hl. unfold len. lia. }
    destruct (start2 >=? len t)%Z; simpl; [exact Hout|].
    apply Forall_app. split; [exact Hout | now apply IH].
Qed.

(** C2, as the code has it. For [chunk_size > 0] and
    [0 <= overlap < chunk_size], every chunk yielded in sentence-aware mode
    is the trimmed single-space join of a non-empty run [cc] of sentences of
    the input whose lengths sum to at most [chunk_size] plus the length of
    the longest sentence; the joining spaces are not counted by the code, so
    the chunk has length at most that bound plus [length cc - 1]. Every
    chunk yielded in character mode has length at most [chunk_size]. *)
Theorem chunk_text_length_bounds
    (t : str) (chunk_size overlap : Z) (sentence_aware : bool)
    (fuel : nat) (c : str) :
  (0 < chunk_size)%Z -> (0 <= overlap < chunk_size)%Z ->
  In c (yielded (chunk_text fuel t chunk_size overlap sentence_aware)) ->
  if sentence_aware && (len t <? chunk_size * 100)%Z
  then exists cc : list str,
         cc <> [] /\ incl cc (split_into_sentences t)
         /\ c = strip (join (lit " ") cc)
         /\ (sum_len cc <= chunk_size + longest_sentence t)%Z
         /\ (len c <= chunk_size + longest_sentence t
                      + (Z.of_nat (length cc) - 1))%Z
  else (len c <= chunk_size)%Z.
Proof.
  intros Hcs Hov. unfold chunk_text.
  replace (chunk_size <=? 0)%Z with false by (symmetry; zbool).
  replace (overlap >=? chunk_size)%Z with false by (symmetry; zbool).
  destruct (sentence_aware && (len t <? chunk_size * 100)%Z); simpl.
  - intros Hin. apply made_of_sentences_length.
    pose proof (sentence_chunks_made t chunk_size overlap Hcs (proj2 Hov))
      as Hall.
    rewrite Forall_forall in Hall. now apply Hall.
  - intros Hin.
    pose proof (char_loop_chunks t chunk_size overlap fuel Hcs 0
                  (Z.le_refl 0)) as Hall.
    rewrite Forall_forall in Hall. now apply Hall.
Qed.

Lemma chunk_text_length_bounds_witness :
  exists cc : list str,
    cc <> [] /\ incl cc (split_into_sentences (lit "a. b. c. d. "))
    /\ lit "a. b. c. d." = strip (join (lit " ") cc)
    /\ (sum_len cc <= 8 + longest_sentence (lit "a. b. c. d. "))%Z
    /\ (len (lit "a. b. c. d.")
        <= 8 + longest_sentence (lit "a. b. c. d. ")
           + (Z.of_nat (length cc) - 1))%Z.
Proof.
  apply (chunk_text_length_bounds (lit "a. b. c. d. ") 8 0 true 0
           (lit "a. b. c. d.")); [lia | lia | vm_compute; auto].
Defined.

(** C2 as stated fails: with [chunk_size = 8] and no overlap the text
    ["a. b. c. d. "] has four sentences of length 2, and the only chunk,
    ["a. b. c. d."], has length 11, above 8 + 2. *)
Lemma chunk_text_sentence_bound_fails :
  longest_sentence (lit "a. b. c. d. ") = 2%Z
  /\ yielded (chunk_text 0 (lit "a. b. c. d. ") 8 0 true)
     = [lit "a. b. c. d."]
  /\ (len (lit "a. b. c. d.") > 8 + longest_sentence (lit "a. b. c. d. "))%Z.
Proof. vm_compute. repeat split. Qed.

(** C9, as the code has it. For [chunk_size > 0], whatever the text, the
    overlap and the mode, no yielded chunk is empty or whitespace only.
    For [chunk_size <= 0] the whole text is yielded as the one chunk,
    unfiltered. *)
Theorem chunk_text_chunks_visible
    (t : str) (chunk_size overlap : Z) (sentence_aware : bool)
    (fuel : nat) :
  ((0 < chunk_size)%Z ->
   forall c,
     In c (yielded (chunk_text fuel t chunk_size overlap sentence_aware)) ->
     c <> [] /\ forallb isspace c = false)
  /\ ((chunk_size <= 0)%Z ->
      chunk_text fuel t chunk_size overlap sentence_aware
      = Generated [t] true).
Proof.
  split.
  - intros Hcs c. unfold chunk_text.
    replace (chunk_size <=? 0)%Z with false by (symmetry; zbool).
    pose proof (clamped_overlap_small chunk_size overlap Hcs) as Hov.
    set (ov := if (overlap >=? chunk_size)%Z then _ else _) in *.
    destruct (sentence_aware && (len t <? chunk_size * 100)%Z); simpl.
    + intros Hin.
      pose proof (sentence_chunks_made t chunk_size ov Hcs Hov) as Hall.
      rewrite Forall_forall in Hall.
      destruct (Hall c Hin) as (cc & _ & _ & Hc & Hne & _).
      rewrite Hc in *. now apply stripped_chunk_visible.
    + intros Hin.
      pose proof (char_loop_chunks t chunk_size ov fuel Hcs 0
                    (Z.le_refl 0)) as Hall.
      rewrite Forall_forall in Hall. now apply Hall.
  - intros Hcs. unfold chunk_text.
    now replace (chunk_size <=? 0)%Z with true by (symmetry; zbool).
Qed.

Lemma chunk_text_chunks_visible_witness :
  (forall c,
     In c (yielded (chunk_text 5 (lit " ab  cd ") 3 0 false)) ->
     c <> [] /\ forallb isspace c = false)
  /\ chunk_text 5 (lit "  ") 0 0 true = Generated [lit "  "] true.
Proof.
  split.
  - apply (proj1 (chunk_text_chunks_visible (lit " ab  cd ") 3 0 false 5)).
    lia.
  - apply (proj2 (chunk_text_chunks_visible (lit "  ") 0 0 true 5)). lia.
Defined.

(** C9 as stated fails in the degenerate case: with [chunk_size = 0] the
    whitespace-only text ["  "] is yielded as a chunk, and so is the empty
    text. *)
Lemma chunk_text_yields_blank_chunk :
  (exists c, In c (yielded (chunk_text 0 (lit "  ") 0 0 true))
             /\ forallb isspace c = true)
  /\ In [] (yielded (chunk_text 0 [] 0 0 true)).
Proof.
  split; [exists (lit "  "); split; [now left | reflexivity] | now left].
Qed.

(** ** Chunk validation *)

(** C8, as the code has it. [validate_chunk] returns false for the empty
    string, for a whitespace-only string, for a string whose trimmed length
    is below [min_length] (so also for every string shorter than
    [min_length]) and for a string with fewer than [min_length // 2]
    alphanumeric characters; it returns true for every other string. *)
Theorem validate_chunk_rejects (chunk : str) (min_length : Z) :
  (validate_chunk chunk min_length = false <->
   chunk = [] \/ forallb isspace chunk = true
   \/ (len (strip chunk) < min_length)%Z
   \/ (count_true isalnum chunk < min_length / 2)%Z)
  /\ ((len chunk < min_length)%Z ->
      validate_chunk chunk min_length = false).
Proof.
  assert (Hiff : validate_chunk chunk min_length = false <->
    chunk = [] \/ forallb isspace chunk = true
    \/ (len (strip chunk) < min_length)%Z
    \/ (count_true isalnum chunk < min_length / 2)%Z).
  { unfold validate_chunk.
    destruct (nonempty chunk) eqn:E1; simpl.
    2:{ apply nonempty_false in E1. tauto. }
    apply nonempty_true in E1.
    destruct (nonempty (strip chunk)) eqn:E2; simpl.
    2:{ apply nonempty_false, strip_nil in E2. tauto. }
    apply strip_nonempty in E2.
    destruct (len (strip chunk) <? min_length)%Z eqn:E3.
    { apply Z.ltb_lt in E3. tauto. }
    apply Z.ltb_ge in E3.
    destruct (count_true isalnum chunk <? min_length / 2)%Z eqn:E4.
    { apply Z.ltb_lt in E4. tauto. }
    apply Z.ltb_ge in E4.
    split; [discriminate|].
    intros [H|[H|[H|H]]]; [congruence | congruence | lia | lia]. }
  split; [exact Hiff|].
  intros Hshort. apply Hiff. right. right. left.
  pose proof (strip_length chunk). unfold len in *. lia.
Qed.

Lemma validate_chunk_rejects_witness :
  validate_chunk (lit "a") 10 = false.
Proof.
  apply (proj2 (validate_chunk_rejects (lit "a") 10)). reflexivity.
Defined.

(** C8 as stated fails: ["abcde     "] is not empty, not whitespace only,
    not shorter than 10 characters and has 5 alphanumeric characters, yet it
    is rejected with [min_length = 10], because its trimmed length is 5. *)
Lemma validate_chunk_trailing_blanks :
  let chunk := lit "abcde     " in
  validate_chunk chunk 10 = false
  /\ chunk <> [] /\ forallb isspace chunk = false
  /\ ~ (len chunk < 10)%Z
  /\ ~ (count_true isalnum chunk < 10 / 2)%Z.
Proof.
  simpl. repeat split; try discriminate; vm_compute; discriminate.
Qed.

(** The checks of the repository's own test of [validate_chunk]. *)
Example test_chunk_validation :
  validate_chunk (lit "This is a valid chunk with enough content.") 10 = true
  /\ validate_chunk (lit "") 10 = false
  /\ validate_chunk (lit "   ") 10 = false
  /\ validate_chunk (lit "a") 10 = false
  /\ validate_chunk (lit ".......") 10 = false.
Proof. vm_compute. repeat split. Qed.

(** ** Substrings *)

Section Substring.

Lemma startswith_spec (w t : str) :
  startswith t w = true <-> exists r, t = w ++ r.
Proof.
  revert t. induction w as [|a w IH]; intros t; simpl.
  - split; [intros _; now exists t | reflexivity].
  - destruct t as [|b t].
    + split; [discriminate | intros [r Hr]; discriminate].
    + rewrite andb_true_iff, Ascii.eqb_eq, IH. split.
      * intros [-> [r ->]]. now exists r.
      * intros [r Hr]. injection Hr as -> ->. split; [reflexivity|].
        now exists r.
Qed.

(** [contains t w] is Python's [w in t]: [w] is a contiguous part of [t]. *)
Lemma contains_spec (t w : str) :
  contains t w = true <-> exists l r, t = l ++ w ++ r.
Proof.
  induction t as [|b t IH].
  - simpl. rewrite orb_false_r, startswith_spec. split.
    + intros [r Hr]. now exists [], r.
    + intros (l & r & H). destruct l; [now exists r|discriminate].
  - cbn [contains]. rewrite orb_true_iff, startswith_spec, IH. split.
    + intros [[r Hr]|(l & r & Hr)].
      * now exists [], r.
      * exists (b :: l), r. now rewrite Hr.
    + intros (l & r & Hr). destruct l as [|c l].
      * left. now exists r.
      * right. injection Hr as _ ->. now exists l, r.
Qed.

End Substring.

(** ** Scoring *)

Definition str_dec : forall a b : str, {a = b} + {a <> b} :=
  list_eq_dec ascii_dec.

(** The query tokens that occur in a text, as the query lists them. *)
Definition hits (query_tokens : list str) (text_lower : str) : list str :=
  filter (fun w => contains text_lower w) query_tokens.

(** The same without repetitions. *)
Definition distinct_hits (query_tokens : list str) (text_lower : str)
    : list str :=
  nodup str_dec (hits query_tokens text_lower).

Section Scoring.

Lemma score_loop (text_lower : str) (tokens : list str) (score : nat) :
  fold_left
    (fun score w => if contains text_lower w then score + 1 else score)
    tokens score
  = score + length (hits tokens text_lower).
Proof.
  revert score. induction tokens as [|w ws IH]; intros score; simpl; [lia|].
  rewrite IH. destruct (contains text_lower w); simpl; lia.
Qed.

Lemma score_counts_hits (tokens : list str) (text_lower : str) :
  score_chunk_optimized tokens text_lower = length (hits tokens text_lower).
Proof. unfold score_chunk_optimized. now rewrite score_loop. Qed.

Lemma nodup_length_le {A} (dec : forall a b : A, {a = b} + {a <> b})
    (l : list A) :
  length (nodup dec l) <= length l.
Proof.
  induction l as [|x l IH]; simpl; [lia|].
  destruct (in_dec dec x l); simpl; lia.
Qed.

Lemma NoDup_filter {A} (p : A -> bool) (l : list A) :
  NoDup l -> NoDup (filter p l).
Proof.
  induction 1 as [|x l Hx Hl IH]; simpl; [constructor|].
  destruct (p x); [|exact IH].
  constructor; [|exact IH]. intros Hin. apply filter_In in Hin. tauto.
Qed.

(** What [score_all] builds with its loop. *)
Definition scored_chunks (query_tokens : list str) (chunks : list DocChunk)
    : list (DocChunk * nat) :=
  filter (fun p => 0 <? snd p)
    (map (fun ch =>
            (ch, score_chunk_optimized query_tokens (lower (text ch))))
         chunks).

Lemma score_all_loop (tokens : list str) (chunks : list DocChunk)
    (acc : list (DocChunk * nat)) :
  fold_left
    (fun scored ch =>
       let s := score_chunk_optimized tokens (lower (text ch)) in
       if 0 <? s then scored ++ [(ch, s)] else scored)
    chunks acc
  = acc ++ scored_chunks tokens chunks.
Proof.
  revert acc. induction chunks as [|ch chunks IH]; intros acc; simpl.
  - now rewrite app_nil_r.
  - rewrite IH. unfold scored_chunks. simpl.
    destruct (0 <? score_chunk_optimized tokens (lower (text ch)));
      [now rewrite <- app_assoc | reflexivity].
Qed.

Lemma score_all_scored (tokens : list str) (chunks : list DocChunk) :
  score_all tokens chunks = scored_chunks tokens chunks.
Proof. unfold score_all. now rewrite score_all_loop. Qed.

Lemma scored_chunks_score tokens chunks ch s :
  In (ch, s) (scored_chunks tokens chunks) ->
  In ch chunks /\ s = score_chunk_optimized tokens (lower (text ch))
  /\ 0 < s.
Proof.
  unfold scored_chunks. rewrite filter_In, in_map_iff. simpl.
  intros [(c & Hc & Hin) Hpos]. injection Hc as -> <-.
  apply Nat.ltb_lt in Hpos. auto.
Qed.

End Scoring.

(** ** The sort of the retriever *)

Definition by_score_desc (a b : DocChunk * nat) : Prop := snd b <= snd a.

Definition has_score (v : nat) (p : DocChunk * nat) : bool := snd p =? v.

Section SortDesc.

Lemma insert_desc_perm x l : Permutation (insert_desc x l) (x :: l).
Proof.
  induction l as [|y r IH]; simpl; [reflexivity|].
  destruct (snd y <=? snd x); [reflexivity|].
  rewrite IH. apply perm_swap.
Qed.

Lemma sort_desc_perm l : Permutation (sort_desc l) l.
Proof.
  induction l as [|x l IH]; simpl; [reflexivity|].
  rewrite insert_desc_perm. now constructor.
Qed.

Lemma insert_desc_sorted x l :
  StronglySorted by_score_desc l ->
  StronglySorted by_score_desc (insert_desc x l).
Proof.
  induction 1 as [|y r Hr IH Hy]; simpl.
  - repeat constructor.
  - destruct (snd y <=? snd x) eqn:E.
    + apply Nat.leb_le in E. constructor.
      * now constructor.
      * constructor; [exact E|].
        rewrite Forall_forall in *. intros z Hz.
        specialize (Hy z Hz). unfold by_score_desc in *. lia.
    + apply Nat.leb_gt in E. constructor; [exact IH|].
      rewrite Forall_forall in *. intros z Hz.
      apply (Permutation_in _ (insert_desc_perm x r)) in Hz.
      destruct Hz as [<-|Hz]; [unfold by_score_desc; lia | now apply Hy].
Qed.

Lemma sort_desc_sorted l : StronglySorted by_score_desc (sort_desc l).
Proof.
  induction l as [|x l IH]; simpl; [constructor|].
  now apply insert_desc_sorted.
Qed.

(** Stability: inserting never moves an entry past another of the same
    score. *)
Lemma insert_desc_stable v x l :
  filter (has_score v) (insert_desc x l)
  = filter (has_score v) (x :: l).
Proof.
  induction l as [|y r IH]; [reflexivity|].
  cbn [insert_desc]. destruct (snd y <=? snd x) eqn:E; [reflexivity|].
  apply Nat.leb_gt in E. cbn [filter] in *. rewrite IH.
  unfold has_score.
  destruct (snd y =? v) eqn:Ey, (snd x =? v) eqn:Ex; try reflexivity.
  apply Nat.eqb_eq in Ey, Ex. lia.
Qed.

Lemma sort_desc_stable v l :
  filter (has_score v) (sort_desc l) = filter (has_score v) l.
Proof.
  induction l as [|x l IH]; [reflexivity|].
  cbn [sort_desc fold_right]. fold (sort_desc l).
  rewrite insert_desc_stable. cbn [filter]. now rewrite IH.
Qed.

Lemma StronglySorted_app_split {A} (R : A -> A -> Prop) (l1 l2 : list A) :
  StronglySorted R (l1 ++ l2) ->
  StronglySorted R l1
  /\ (forall a b, In a l1 -> In b l2 -> R a b).
Proof.
  induction l1 as [|x l1 IH]; simpl; intros H.
  - split; [constructor | intros a b []].
  - inversion H as [|? ? Hs Hx]; subst.
    destruct (IH Hs) as [H1 H2]. split.
    + constructor; [exact H1|].
      rewrite Forall_forall in *. intros z Hz. apply Hx.
      apply in_or_app. now left.
    + intros a b [<-|Ha] Hb; [|now apply H2].
      rewrite Forall_forall in Hx. apply Hx, in_or_app. now right.
Qed.

End SortDesc.

(** ** Slices *)

Section Slices.

Context {A : Type}.

Lemma slice_to_nonneg (l : list A) (k : Z) :
  (0 <= k)%Z -> slice_to l k = firstn (Z.to_nat k) l.
Proof.
  intros Hk. unfold slice_to, slice, slice_index. simpl.
  replace (k <? 0)%Z with false by (symmetry; zbool).
  rewrite (Z.min_l 0) by lia. rewrite Z.sub_0_r. simpl.
  destruct (Z_le_gt_dec k (Z.of_nat (length l))) as [H|H].
  - now rewrite Z.min_l by lia.
  - rewrite Z.min_r by lia. rewrite Nat2Z.id.
    rewrite !firstn_all2; [reflexivity | lia | lia].
Qed.

Lemma slice_to_negative (l : list A) (k : Z) :
  (k < 0)%Z ->
  slice_to l k = firstn (Z.to_nat (Z.of_nat (length l) + k)) l.
Proof.
  intros Hk. unfold slice_to, slice, slice_index. simpl.
  replace (k <? 0)%Z with true by (symmetry; zbool).
  rewrite (Z.min_l 0) by lia. rewrite Z.sub_0_r. simpl. f_equal. lia.
Qed.

Lemma firstn_skipn_In (l : list A) (n a : nat) (x : A) :
  In x (firstn n (skipn a l)) -> In x l.
Proof.
  intros H. rewrite <- (firstn_skipn a l). apply in_or_app. right.
  rewrite <- (firstn_skipn n (skipn a l)). apply in_or_app. now left.
Qed.

Lemma slice_In (l : list A) (lo hi : Z) (x : A) :
  In x (slice l lo hi) -> In x l.
Proof. unfold slice. apply firstn_skipn_In. Qed.

Lemma slice_to_nil (k : Z) : slice_to (@nil A) k = [].
Proof. unfold slice_to, slice. now rewrite skipn_nil, firstn_nil. Qed.

End Slices.

(** ** Query tokens *)

Section Tokens.

Lemma isspace_lower_char c : isspace (lower_char c) = isspace c.
Proof.
  destruct c as [b0 b1 b2 b3 b4 b5 b6 b7];
    destruct b0, b1, b2, b3, b4, b5, b6, b7; reflexivity.
Qed.

(** The tokens are those of the lower-cased query: without a token longer
    than 2 characters there, no token is kept. *)
Lemma tokenize_nil query :
  (forall w, In w (split (lower query)) -> length w <= 2) ->
  tokenize query = [].
Proof.
  intros H. unfold tokenize.
  induction (split (lower query)) as [|w ws IH]; [reflexivity|]. simpl.
  replace (2 <? length w) with false.
  - apply IH. intros x Hx. apply H. now right.
  - symmetry. apply Nat.ltb_ge. apply H. now left.
Qed.

Lemma score_no_tokens t : score_chunk_optimized [] t = 0.
Proof. reflexivity. Qed.

Lemma scored_chunks_no_tokens chunks : scored_chunks [] chunks = [].
Proof. induction chunks as [|c cs IH]; [reflexivity | exact IH]. Qed.

End Tokens.

(** ** Top-k retrieval *)

Lemma retrieve_top_k_unfold query chunks top_k :
  retrieve_top_k query chunks top_k
  = slice_to (sort_desc (scored_chunks (tokenize query) chunks)) top_k.
Proof.
  unfold retrieve_top_k. rewrite score_all_scored.
  destruct (tokenize query); simpl; [|reflexivity].
  rewrite scored_chunks_no_tokens. simpl. now rewrite slice_to_nil.
Qed.

(** C3, as the code has it: for every query, every chunk list and every
    [k >= 0], [retrieve_top_k] returns a sequence whose length is the
    minimum of [k] and the number of chunks with a positive score, sorted
    by descending score, with entries of equal score in the original order
    of their chunks (for each score, the results with that score are the
    first chunks with that score), and no dropped entry scores above a
    returned one.  It returns the empty sequence when the chunk list is
    empty or when the lower-cased query, which is what the code splits,
    has no whitespace-separated token of length above 2.  Being a total
    function, it never raises. *)
Theorem retrieve_top_k_spec (query : str) (chunks : list DocChunk) (k : Z) :
  (0 <= k)%Z ->
  let result := retrieve_top_k query chunks k in
  let scored := scored_chunks (tokenize query) chunks in
  Z.of_nat (length result) = Z.min k (Z.of_nat (length scored))
  /\ StronglySorted by_score_desc result
  /\ (forall v, exists rest,
        filter (has_score v) scored = filter (has_score v) result ++ rest)
  /\ (exists dropped,
        Permutation (result ++ dropped) scored
        /\ forall a b, In a result -> In b dropped -> snd b <= snd a)
  /\ (chunks = [] -> result = [])
  /\ ((forall w, In w (split (lower query)) -> length w <= 2) ->
      result = []).
Proof.
  intros Hk result scored. subst result.
  rewrite retrieve_top_k_unfold. fold scored.
  rewrite slice_to_nonneg by exact Hk.
  set (sorted := sort_desc scored).
  pose proof (firstn_skipn (Z.to_nat k) sorted) as Hsplit.
  pose proof (sort_desc_sorted scored) as Hsorted. fold sorted in Hsorted.
  rewrite <- Hsplit in Hsorted.
  apply StronglySorted_app_split in Hsorted as [Hs1 Hs2].
  repeat split.
  - rewrite length_firstn. unfold sorted.
    rewrite (Permutation_length (sort_desc_perm scored)). lia.
  - exact Hs1.
  - intros v. exists (filter (has_score v) (skipn (Z.to_nat k) sorted)).
    rewrite <- filter_app, Hsplit. unfold sorted.
    now rewrite sort_desc_stable.
  - exists (skipn (Z.to_nat k) sorted). split.
    + rewrite Hsplit. apply sort_desc_perm.
    + intros a b Ha Hb. exact (Hs2 a b Ha Hb).
  - intros ->. unfold sorted, scored. simpl. now rewrite firstn_nil.
  - intros Hq. unfold sorted, scored. rewrite (tokenize_nil query Hq).
    rewrite scored_chunks_no_tokens. simpl. now rewrite firstn_nil.
Qed.

Definition chunk_cat : DocChunk :=
  mkDocChunk (lit "d1") (lit "pets.txt") 0 (lit "The cat sat").
Definition chunk_dog : DocChunk :=
  mkDocChunk (lit "d1") (lit "pets.txt") 1 (lit "A dog and a cat").
Definition chunk_fish : DocChunk :=
  mkDocChunk (lit "d2") (lit "sea.txt") 0 (lit "Fish swim").
Definition chunk_cat2 : DocChunk :=
  mkDocChunk (lit "d2") (lit "sea.txt") 1 (lit "Catfish are fish").

Lemma retrieve_top_k_spec_witness :
  let result :=
    retrieve_top_k (lit "Cat or DOG")
      [chunk_cat; chunk_dog; chunk_fish; chunk_cat2] 2 in
  let scored :=
    scored_chunks (tokenize (lit "Cat or DOG"))
      [chunk_cat; chunk_dog; chunk_fish; chunk_cat2] in
  Z.of_nat (length result) = Z.min 2 (Z.of_nat (length scored))
  /\ StronglySorted by_score_desc result
  /\ (forall v, exists rest,
        filter (has_score v) scored = filter (has_score v) result ++ rest)
  /\ (exists dropped,
        Permutation (result ++ dropped) scored
        /\ forall a b, In a result -> In b dropped -> snd b <= snd a)
  /\ ([chunk_cat; chunk_dog; chunk_fish; chunk_cat2] = [] -> result = [])
  /\ ((forall w, In w (split (lower (lit "Cat or DOG"))) -> length w <= 2) ->
      result = []).
Proof.
  apply (retrieve_top_k_spec (lit "Cat or DOG")
           [chunk_cat; chunk_dog; chunk_fish; chunk_cat2] 2).
  lia.
Defined.

Example retrieve_top_k_example :
  retrieve_top_k (lit "Cat or DOG")
    [chunk_cat; chunk_dog; chunk_fish; chunk_cat2] 2
  = [(chunk_dog, 2); (chunk_cat, 1)].
Proof. reflexivity. Qed.

(** C3 as stated fails for a negative [k]: the slice [scored[:-1]] drops
    the last entry only, so with three scoring chunks two are returned,
    which is not the minimum of -1 and 3. *)
Lemma retrieve_top_k_negative_k :
  let chunks := [chunk_cat; chunk_dog; chunk_fish; chunk_cat2] in
  retrieve_top_k (lit "Cat or DOG") chunks (-1)
  = [(chunk_dog, 2); (chunk_cat, 1)]
  /\ length (scored_chunks (tokenize (lit "Cat or DOG")) chunks) = 3
  /\ Z.of_nat (length (retrieve_top_k (lit "Cat or DOG") chunks (-1)))
     <> Z.min (-1)
          (Z.of_nat
             (length (scored_chunks (tokenize (lit "Cat or DOG")) chunks))).
Proof. vm_compute. repeat split. discriminate. Qed.

(** What the slice does for a negative [k]. *)
Lemma retrieve_top_k_negative (query : str) (chunks : list DocChunk) (k : Z) :
  (k < 0)%Z ->
  Z.of_nat (length (retrieve_top_k query chunks k))
  = Z.max 0
      (Z.of_nat (length (scored_chunks (tokenize query) chunks)) + k).
Proof.
  intros Hk. rewrite retrieve_top_k_unfold, slice_to_negative by exact Hk.
  rewrite length_firstn.
  rewrite !(Permutation_length (sort_desc_perm _)). lia.
Qed.

(** C4, as the code has it: the score of a chunk is the number of query
    tokens, each counted as often as the query repeats it, that occur as a
    substring of the lower-cased chunk text; an occurrence is counted once
    however often the token occurs in the text. The retriever pairs every
    returned chunk with this score. The score is at least the number of
    distinct tokens that occur, and equals it when the query does not
    repeat a token. *)
Theorem score_chunk_counts_token_occurrences
    (query : str) (ch : DocChunk) :
  let query_tokens := tokenize query in
  let text_lower := lower (text ch) in
  let score := score_chunk_optimized query_tokens text_lower in
  score = length (filter (fun w => contains text_lower w) query_tokens)
  /\ (forall w, contains text_lower w = true <->
                exists l r, text_lower = l ++ w ++ r)
  /\ (forall chunks k s,
        In (ch, s) (retrieve_top_k query chunks k) -> s = score)
  /\ length (distinct_hits query_tokens text_lower) <= score
  /\ (NoDup query_tokens ->
      score = length (distinct_hits query_tokens text_lower)).
Proof.
  intros query_tokens text_lower score. subst score.
  rewrite score_counts_hits. repeat split.
  - apply contains_spec.
  - apply contains_spec.
  - intros chunks k s Hin. rewrite retrieve_top_k_unfold in Hin.
    apply slice_In in Hin.
    apply (Permutation_in _ (sort_desc_perm _)) in Hin.
    apply scored_chunks_score in Hin as (_ & -> & _).
    apply score_counts_hits.
  - apply nodup_length_le.
  - intros Hnd. unfold distinct_hits.
    rewrite nodup_fixed_point; [reflexivity|]. now apply NoDup_filter.
Qed.

Lemma score_chunk_counts_token_occurrences_witness :
  score_chunk_optimized (tokenize (lit "Cat or DOG"))
    (lower (text chunk_dog))
  = length (distinct_hits (tokenize (lit "Cat or DOG"))
              (lower (text chunk_dog))).
Proof.
  apply (proj2 (proj2 (proj2 (proj2
    (score_chunk_counts_token_occurrences (lit "Cat or DOG") chunk_dog))))).
  vm_compute. repeat constructor; simpl; intuition discriminate.
Defined.

(** C4 as stated fails: the query ["cat cat"] has one distinct token, which
    occurs in ["The cat sat"], and the chunk scores 2. *)
Lemma score_counts_repeated_tokens :
  tokenize (lit "cat cat") = [lit "cat"; lit "cat"]
  /\ retrieve_top_k (lit "cat cat") [chunk_cat] 5 = [(chunk_cat, 2)]
  /\ score_chunk_optimized (tokenize (lit "cat cat"))
       (lower (text chunk_cat)) = 2
  /\ length (distinct_hits (tokenize (lit "cat cat"))
               (lower (text chunk_cat))) = 1.
Proof. vm_compute. repeat split. Qed.

(** ** PDF extraction *)

(** The text of a page that counts as extracted: the extraction returned a
    string that is not whitespace only. *)
Definition readable_text (p : page) : option str :=
  match p with
  | Page (Extracted t) => if nonempty (strip t) then Some t else None
  | _ => None
  end.

Definition readable_texts (pages : list page) : list str :=
  flat_map
    (fun p => match readable_text p with Some t => [t] | None => [] end)
    pages.

Definition count_nonspace (t : str) : Z :=
  count_true (fun c => negb (isspace c)) t.

Section PageLoop.

Variables (progress_callback : option callback).
Variables (batch_size to_process : Z).

Lemma strip_nonempty_source (t : str) :
  nonempty (strip t) = true -> nonempty t = true.
Proof.
  intros H. destruct t; [discriminate H | reflexivity].
Qed.

(** A page adds its text when it is readable, and nothing otherwise;
    whatever else happens in the turn only touches the failure list and
    the log. *)
Lemma page_step_text_parts (st : loop_state) (page_num : Z) (p : page) :
  text_parts (page_step progress_callback batch_size to_process
                st page_num p)
  = text_parts st
    ++ match readable_text p with Some t => [t] | None => [] end.
Proof.
  unfold page_step, readable_text.
  destruct p as [e|]; [|simpl; now rewrite app_nil_r].
  assert (Hcb : forall st1,
    text_parts
      (match progress_callback with
       | Some cb =>
           match cb (page_num + 1)%Z to_process with
           | Returns => st1
           | CallbackRaises =>
               mkLoopState (text_parts st1) (failed_pages st1)
                 (log st1 ++ [LogProgressCallback])
           end
       | None => st1
       end) = text_parts st1).
  { intros st1. destruct progress_callback as [cb|]; [|reflexivity].
    now destruct (cb _ _). }
  destruct (batch_size =? 0)%Z; cbn [text_parts]; rewrite Hcb;
    (destruct e as [[|c t]| |]; simpl; rewrite ?app_nil_r;
     try reflexivity;
     destruct (nonempty (strip (c :: t))); simpl;
     now rewrite ?app_nil_r).
Qed.

Lemma page_loop_text_parts (pages : list page) (st : loop_state)
    (page_num : Z) :
  text_parts (page_loop progress_callback batch_size to_process
                st page_num pages)
  = text_parts st ++ readable_texts pages.
Proof.
  revert st page_num. induction pages as [|p rest IH]; intros st page_num.
  - simpl. now rewrite app_nil_r.
  - cbn [page_loop]. rewrite IH, page_step_text_parts.
    unfold readable_texts. cbn [flat_map]. now rewrite app_assoc.
Qed.

End PageLoop.

Lemma finish_pdf_cases (parts : list str) :
  parts <> [] ->
  finish_pdf parts
  = if (len (clean_text (join blank_line parts)) <? 10)%Z
    then Raise NoMeaningfulText
    else Ok (clean_text (join blank_line parts)).
Proof.
  intros Hne. unfold finish_pdf.
  destruct parts as [|p ps]; [congruence|]. cbn [nonempty negb].
  rewrite clean_text_stripped.
  destruct (clean_text (join blank_line (p :: ps))); reflexivity.
Qed.

(** C5, as the code has it: a page whose extraction fails is skipped and
    never aborts the document.  For a file that passes the size check and
    parses, when at least one processed page yields text that is not
    whitespace only, [read_pdf_bytes] works on exactly the texts of those
    pages, in page order, joined by a blank line and normalised: it returns
    that text when it has at least 10 characters and raises
    [NoMeaningfulText] otherwise.  No other error is possible, whatever the
    other pages, the callback and the batch size do. *)
Theorem read_pdf_bytes_skips_failed_pages
    (file_obj : pdf_file) (max_size_mb : Q) (max_pages : option Z)
    (progress_callback : option callback) (batch_size : Z)
    (pages : list page) :
  validate_file_size file_obj max_size_mb = Ok tt ->
  parse file_obj = Reader pages ->
  let processed :=
    firstn
      (Z.to_nat (pages_to_process (Z.of_nat (length pages)) max_pages))
      pages in
  readable_texts processed <> [] ->
  let cleaned := clean_text (join blank_line (readable_texts processed)) in
  read_pdf_bytes file_obj max_size_mb max_pages progress_callback batch_size
  = if (len cleaned <? 10)%Z then Raise NoMeaningfulText else Ok cleaned.
Proof.
  intros Hsize Hparse processed Hgood cleaned.
  unfold read_pdf_bytes, validate_pdf_integrity.
  rewrite Hsize, Hparse.
  set (n := pages_to_process (Z.of_nat (length pages)) max_pages) in *.
  assert (Hp : processed <> []) by (intros E; now rewrite E in Hgood).
  destruct (length pages =? 0) eqn:El.
  { exfalso. apply Hp. apply Nat.eqb_eq, length_zero_iff_nil in El.
    unfold processed. rewrite El. apply firstn_nil. }
  destruct (n =? 0)%Z eqn:E0.
  { exfalso. apply Hp. apply Z.eqb_eq in E0. unfold processed.
    now rewrite E0. }
  rewrite page_loop_text_parts. cbn [text_parts app].
  fold processed. now apply finish_pdf_cases.
Qed.

Definition sample_page (n : nat) : page :=
  match n with
  | 3 | 7 => Page ExtractRaises
  | _ => Page (Extracted (lit "Some text of a page."))
  end.

Definition ten_pages : pdf_file :=
  mkPdfFile 4096 (Reader (map sample_page (seq 0 10))).

Lemma read_pdf_bytes_skips_failed_pages_witness :
  read_pdf_bytes ten_pages (Qmake 50 1) None None 10
  = Ok (clean_text
          (join blank_line (repeat (lit "Some text of a page.") 8))).
Proof.
  apply (read_pdf_bytes_skips_failed_pages ten_pages (Qmake 50 1) None None
           10 (map sample_page (seq 0 10)));
    [reflexivity | reflexivity | discriminate].
Defined.

(** C5 as stated fails: the first page of this file yields the text
    ["hi"], the second page raises, and the extraction raises
    [NoMeaningfulText] instead of returning ["hi"]. *)
Lemma read_pdf_bytes_short_text_fails :
  let f := mkPdfFile 4096
             (Reader [Page (Extracted (lit "hi")); Page ExtractRaises]) in
  readable_texts [Page (Extracted (lit "hi")); Page ExtractRaises]
  = [lit "hi"]
  /\ read_pdf_bytes f (Qmake 50 1) None None 10 = Raise NoMeaningfulText.
Proof. split; reflexivity. Qed.

(** C6, as the code has it: once some page text was collected, the
    extraction raises [NoMeaningfulText] exactly when the normalised join
    of the texts has fewer than 10 characters, whitespace inside it
    included; otherwise it returns the normalised text. *)
Theorem finish_pdf_threshold (parts : list str) :
  parts <> [] ->
  let cleaned := clean_text (join blank_line parts) in
  (finish_pdf parts = Raise NoMeaningfulText <-> (len cleaned < 10)%Z)
  /\ (finish_pdf parts = Ok cleaned <-> (10 <= len cleaned)%Z).
Proof.
  intros Hne cleaned. rewrite (finish_pdf_cases parts Hne). fold cleaned.
  destruct (len cleaned <? 10)%Z eqn:E.
  - apply Z.ltb_lt in E. repeat split; try discriminate; try lia; auto.
  - apply Z.ltb_ge in E. repeat split; try discriminate; try lia; auto.
Qed.

Lemma finish_pdf_threshold_witness :
  (finish_pdf [lit "a b"; lit "c"] = Raise NoMeaningfulText <->
   (len (clean_text (join blank_line [lit "a b"; lit "c"])) < 10)%Z)
  /\ (finish_pdf [lit "a b"; lit "c"]
      = Ok (clean_text (join blank_line [lit "a b"; lit "c"])) <->
      (10 <= len (clean_text (join blank_line [lit "a b"; lit "c"])))%Z).
Proof.
  apply (finish_pdf_threshold [lit "a b"; lit "c"]). discriminate.
Defined.

(** C6 as stated fails: the normalised text ["a b c d e f"] has 6
    characters that are not whitespace, fewer than 10, and it is returned,
    because its length, 11, is what the code compares with 10. *)
Lemma finish_pdf_counts_inner_blanks :
  let f := mkPdfFile 4096 (Reader [Page (Extracted (lit "a b c d e f"))]) in
  clean_text (join blank_line [lit "a b c d e f"]) = lit "a b c d e f"
  /\ count_nonspace (lit "a b c d e f") = 6%Z
  /\ finish_pdf [lit "a b c d e f"] = Ok (lit "a b c d e f")
  /\ read_pdf_bytes f (Qmake 50 1) None None 10 = Ok (lit "a b c d e f").
Proof. repeat split; reflexivity. Qed.

(** ** The in-memory store *)

(** The two dictionaries of a store list the same document ids, in the
    same order. *)
Definition keys_agree (s : InMemoryStore) : Prop :=
  dict_keys (docs s) = dict_keys (chunks s).

Section StoreInvariant.

Variable getsizeof : str -> nat.

Lemma dict_set_keys {V W} (k : str) (v : V) (w : W)
    (d : dict V) (e : dict W) :
  dict_keys d = dict_keys e ->
  dict_keys (dict_set k v d) = dict_keys (dict_set k w e).
Proof.
  revert e. induction d as [|[k1 v1] d IH]; intros [|[k2 w2] e] H;
    try discriminate H; [reflexivity|].
  injection H as -> H. simpl. destruct (str_eqb k k2); simpl.
  - now f_equal.
  - f_equal. now apply IH.
Qed.

Lemma dict_pop_keys {V W} (k : str) (d : dict V) (e : dict W) :
  dict_keys d = dict_keys e ->
  dict_keys (dict_pop k d) = dict_keys (dict_pop k e).
Proof.
  revert e. induction d as [|[k1 v1] d IH]; intros [|[k2 w2] e] H;
    try discriminate H; [reflexivity|].
  injection H as -> H. simpl. destruct (str_eqb k k2); simpl.
  - exact H.
  - f_equal. now apply IH.
Qed.

Lemma str_eqb_eq (a b : str) : str_eqb a b = true <-> a = b.
Proof.
  unfold str_eqb. destruct (list_eq_dec ascii_dec a b); split;
    congruence.
Qed.

Lemma dict_get_keys {V} (k : str) (d : dict V) :
  In k (dict_keys d) <-> exists v, dict_get k d = Some v.
Proof.
  induction d as [|[k1 v1] d IH]; simpl.
  - split; [tauto | intros [v Hv]; discriminate].
  - destruct (str_eqb k k1) eqn:E.
    + apply str_eqb_eq in E. subst k1. split; [now exists v1 | now left].
    + rewrite <- IH. split; [|tauto].
      intros [->|H]; [|exact H].
      assert (str_eqb k k = true) by now apply str_eqb_eq. congruence.
Qed.

Lemma dict_get_In {V} (k : str) (v : V) (d : dict V) :
  In (k, v) d -> In k (dict_keys d).
Proof. intros H. apply (in_map fst) in H. exact H. Qed.

Lemma apply_op_keys_agree (s : InMemoryStore) (op : store_op) :
  keys_agree s -> keys_agree (fst (apply_op getsizeof s op)).
Proof.
  unfold keys_agree. intros H. destruct op; simpl; try exact H.
  - now apply dict_set_keys.
  - now apply dict_pop_keys.
Qed.

Lemma run_ops_keys_agree (ops : list store_op) (s : InMemoryStore) :
  keys_agree s -> keys_agree (run_ops getsizeof ops s).
Proof.
  revert s. induction ops as [|op ops IH]; intros s H; [exact H|].
  apply IH. now apply apply_op_keys_agree.
Qed.

(** The keys of each dictionary stay distinct. *)
Lemma dict_set_In_keys {V} (k x : str) (v : V) (d : dict V) :
  In x (dict_keys (dict_set k v d)) -> x = k \/ In x (dict_keys d).
Proof.
  induction d as [|[k1 v1] d IH]; simpl.
  - intros [<-|[]]. now left.
  - destruct (str_eqb k k1); simpl; [tauto|].
    intros [->|H]; [tauto|]. apply IH in H. tauto.
Qed.

Lemma dict_set_NoDup {V} (k : str) (v : V) (d : dict V) :
  NoDup (dict_keys d) -> NoDup (dict_keys (dict_set k v d)).
Proof.
  induction d as [|[k1 v1] d IH]; simpl; intros H.
  - repeat constructor. intros [].
  - destruct (str_eqb k k1) eqn:E; simpl; [exact H|].
    inversion H as [|? ? Hk Hd]; subst. constructor; [|now apply IH].
    intros Hin. apply dict_set_In_keys in Hin as [->|Hin]; [|tauto].
    assert (str_eqb k k = true) by now apply str_eqb_eq. congruence.
Qed.

Lemma dict_pop_In_keys {V} (k x : str) (d : dict V) :
  In x (dict_keys (dict_pop k d)) -> In x (dict_keys d).
Proof.
  induction d as [|[k1 v1] d IH]; simpl; [tauto|].
  destruct (str_eqb k k1); simpl; [tauto|].
  intros [->|H]; [tauto|]. right. now apply IH.
Qed.

Lemma dict_pop_NoDup {V} (k : str) (d : dict V) :
  NoDup (dict_keys d) -> NoDup (dict_keys (dict_pop k d)).
Proof.
  induction d as [|[k1 v1] d IH]; simpl; intros H; [exact H|].
  inversion H as [|? ? Hk Hd]; subst.
  destruct (str_eqb k k1); simpl; [exact Hd|].
  constructor; [|now apply IH].
  intros Hin. now apply dict_pop_In_keys in Hin.
Qed.

Lemma run_ops_keys_distinct (ops : list store_op) (s : InMemoryStore) :
  NoDup (dict_keys (docs s)) ->
  NoDup (dict_keys (docs (run_ops getsizeof ops s))).
Proof.
  revert s. induction ops as [|op ops IH]; intros s H; [exact H|].
  apply IH. destruct op; simpl; try exact H.
  - now apply dict_set_NoDup.
  - now apply dict_pop_NoDup.
Qed.

(** C10. Starting from the empty store, after every sequence of
    [upsert_doc], [remove_doc], [get_chunks], [list_docs],
    [get_total_chunks], [get_memory_usage_mb] and [get_statistics]
    operations the name dictionary and the chunk dictionary have the same
    keys (even in the same order): every listed document has a chunk
    sequence, and every chunk sequence belongs to a listed document. *)
Theorem store_keys_invariant (ops : list store_op) :
  let s := run_ops getsizeof ops new_store in
  dict_keys (docs s) = dict_keys (chunks s)
  /\ (forall i, In i (dict_keys (docs s)) <-> In i (dict_keys (chunks s)))
  /\ (forall i name,
        In (i, name) (list_docs s) ->
        exists cs, dict_get i (chunks s) = Some cs /\ get_chunks s i = cs)
  /\ (forall i cs,
        dict_get i (chunks s) = Some cs ->
        exists name, dict_get i (docs s) = Some name).
Proof.
  intros s.
  assert (H : keys_agree s) by (apply run_ops_keys_agree; reflexivity).
  unfold keys_agree in H. repeat split.
  - exact H.
  - now rewrite H.
  - now rewrite H.
  - intros i name Hin. unfold list_docs in Hin.
    apply dict_get_In in Hin. rewrite H in Hin.
    apply dict_get_keys in Hin as [cs Hcs]. exists cs. split; [exact Hcs|].
    unfold get_chunks. now rewrite Hcs.
  - intros i cs Hcs. apply dict_get_keys. rewrite H.
    apply dict_get_keys. now exists cs.
Qed.

End StoreInvariant.

(** The store of the specification: what was upserted is what is read back,
    and a removed document reads back as no chunks. *)
Lemma get_chunks_after_upsert (s : InMemoryStore) (i name : str)
    (cs : list DocChunk) :
  get_chunks (upsert_doc s i name cs) i = cs.
Proof.
  unfold get_chunks, upsert_doc. simpl.
  induction (chunks s) as [|[k v] d IH]; simpl.
  - now replace (str_eqb i i) with true by (symmetry; now apply str_eqb_eq).
  - destruct (str_eqb i k) eqn:E; simpl; rewrite E; [reflexivity | exact IH].
Qed.

(** ** The repository's test of the sentence mode *)

Definition test_text : str :=
  concat (repeat (lit "This is sentence one. This is sentence two. ") 50).

(** [test_sentence_aware_chunking]: some chunk is yielded, and no chunk
    has more than 120 characters. *)
Example test_sentence_aware_chunking :
  let chunks := yielded (chunk_text 0 test_text 100 20 true) in
  nonempty chunks = true
  /\ forallb (fun c => length c <=? 120) chunks = true
  /\ forallb (fun c => length c =? 87) chunks = true
  /\ length chunks = 25.
Proof. vm_compute. repeat split. Qed.

(* ================================================================== *)
(** * Part III: further properties of the code                         *)
(* ================================================================== *)

(** ** The store: reading back, removing, order and counts *)

Section DictFacts.

Context {V : Type}.

Lemma str_eqb_refl (k : str) : str_eqb k k = true.
Proof. now apply str_eqb_eq. Qed.

Lemma str_eqb_neq (j k : str) : j <> k -> str_eqb j k = false.
Proof.
  intros H. destruct (str_eqb j k) eqn:E; [|reflexivity].
  apply str_eqb_eq in E. contradiction.
Qed.

Lemma dict_get_set_same (k : str) (v : V) (d : dict V) :
  dict_get k (dict_set k v d) = Some v.
Proof.
  induction d as [|[k1 v1] d IH]; simpl.
  - now rewrite str_eqb_refl.
  - destruct (str_eqb k k1) eqn:E; simpl; rewrite E; [reflexivity|exact IH].
Qed.

Lemma dict_get_set_other (j k : str) (v : V) (d : dict V) :
  j <> k -> dict_get j (dict_set k v d) = dict_get j d.
Proof.
  intros Hjk. induction d as [|[k1 v1] d IH]; simpl.
  - now rewrite (str_eqb_neq j k Hjk).
  - destruct (str_eqb k k1) eqn:E; simpl; [|now rewrite IH].
    apply str_eqb_eq in E. subst k1. now rewrite (str_eqb_neq j k Hjk).
Qed.

Lemma dict_get_some_iff (k : str) (d : dict V) :
  In k (dict_keys d) <-> exists v, dict_get k d = Some v.
Proof.
  induction d as [|[k1 v1] d IH]; simpl.
  - split; [intros [] | intros [v Hv]; discriminate].
  - destruct (str_eqb k k1) eqn:E.
    + apply str_eqb_eq in E. subst k1. split; [now exists v1 | now left].
    + rewrite <- IH. split; [|now right].
      intros [->|H]; [now rewrite str_eqb_refl in E | exact H].
Qed.

Lemma dict_get_absent (k : str) (d : dict V) :
  ~ In k (dict_keys d) -> dict_get k d = None.
Proof.
  intros H. destruct (dict_get k d) as [v|] eqn:E; [|reflexivity].
  exfalso. apply H. apply (proj2 (dict_get_some_iff k d)). now exists v.
Qed.

Lemma dict_get_pop_same (k : str) (d : dict V) :
  NoDup (dict_keys d) -> dict_get k (dict_pop k d) = None.
Proof.
  induction d as [|[k1 v1] d IH]; simpl; intros H; [reflexivity|].
  inversion H as [|? ? Hk Hd]; subst.
  destruct (str_eqb k k1) eqn:E.
  - apply str_eqb_eq in E. subst k1. now apply dict_get_absent.
  - simpl. rewrite E. now apply IH.
Qed.

Lemma dict_get_pop_other (j k : str) (d : dict V) :
  j <> k -> dict_get j (dict_pop k d) = dict_get j d.
Proof.
  intros Hjk. induction d as [|[k1 v1] d IH]; simpl; [reflexivity|].
  destruct (str_eqb k k1) eqn:E; simpl.
  - apply str_eqb_eq in E. subst k1. now rewrite (str_eqb_neq j k Hjk).
  - now rewrite IH.
Qed.

Lemma dict_pop_absent (k : str) (d : dict V) :
  ~ In k (dict_keys d) -> dict_pop k d = d.
Proof.
  induction d as [|[k1 v1] d IH]; simpl; intros H; [reflexivity|].
  rewrite str_eqb_neq by (intros ->; apply H; now left).
  f_equal. apply IH. intros Hin. apply H. now right.
Qed.

Lemma dict_pop_removes (k : str) (d : dict V) :
  NoDup (dict_keys d) -> ~ In k (dict_keys (dict_pop k d)).
Proof.
  intros Hnd Hin. apply (proj1 (dict_get_some_iff _ _)) in Hin as [v Hv].
  rewrite dict_get_pop_same in Hv by exact Hnd. discriminate.
Qed.

Lemma dict_set_twice (k : str) (v1 v2 : V) (d : dict V) :
  dict_set k v2 (dict_set k v1 d) = dict_set k v2 d.
Proof.
  induction d as [|[k1 w] d IH]; simpl.
  - now rewrite str_eqb_refl.
  - destruct (str_eqb k k1) eqn:E; simpl; rewrite E; [reflexivity|].
    now rewrite IH.
Qed.

Lemma dict_set_present (k : str) (v : V) (d : dict V) :
  In k (dict_keys d) -> dict_keys (dict_set k v d) = dict_keys d.
Proof.
  induction d as [|[k1 w] d IH]; simpl; [tauto|].
  destruct (str_eqb k k1) eqn:E; simpl; [reflexivity|].
  intros [->|H]; [now rewrite str_eqb_refl in E|]. now rewrite IH.
Qed.

Lemma dict_set_absent (k : str) (v : V) (d : dict V) :
  ~ In k (dict_keys d) -> dict_set k v d = d ++ [(k, v)].
Proof.
  induction d as [|[k1 w] d IH]; simpl; intros H; [reflexivity|].
  rewrite str_eqb_neq by (intros ->; apply H; now left).
  f_equal. apply IH. intros Hin. apply H. now right.
Qed.

End DictFacts.

(** X1. What [upsert_doc] stores under an id is what [get_chunks] and the
    name dictionary give back for that id, and nothing changes for any
    other id. *)
Theorem upsert_doc_read_back (s : InMemoryStore) (i name : str)
    (cs : list DocChunk) :
  let s' := upsert_doc s i name cs in
  get_chunks s' i = cs
  /\ dict_get i (docs s') = Some name
  /\ (forall j, j <> i ->
        get_chunks s' j = get_chunks s j
        /\ dict_get j (docs s') = dict_get j (docs s)).
Proof.
  simpl. repeat split.
  - apply get_chunks_after_upsert.
  - apply dict_get_set_same.
  - unfold get_chunks, upsert_doc. simpl.
    now rewrite dict_get_set_other.
  - unfold upsert_doc. simpl. now apply dict_get_set_other.
Qed.

(** X3. Removing an id that the store does not hold changes nothing. *)
Theorem remove_doc_absent (s : InMemoryStore) (i : str) :
  ~ In i (dict_keys (docs s)) -> ~ In i (dict_keys (chunks s)) ->
  remove_doc s i = s.
Proof.
  intros Hd Hc. destruct s as [d c]. unfold remove_doc. simpl in *.
  now rewrite !dict_pop_absent.
Qed.

(** X4. [list_docs] keeps insertion order: upserting an id that is already
    listed leaves the order of the ids unchanged, and upserting a new id
    appends it at the end. *)
Theorem upsert_doc_order (s : InMemoryStore) (i name : str)
    (cs : list DocChunk) :
  (In i (map fst (list_docs s)) ->
   map fst (list_docs (upsert_doc s i name cs)) = map fst (list_docs s))
  /\ (~ In i (map fst (list_docs s)) ->
      list_docs (upsert_doc s i name cs) = list_docs s ++ [(i, name)]).
Proof.
  unfold list_docs, upsert_doc. simpl. split; intros H.
  - now apply dict_set_present.
  - now apply dict_set_absent.
Qed.

(** X6. The last [upsert_doc] for an id wins: a second upsert of the same
    id gives the store that the second upsert alone would give. *)
Theorem upsert_doc_overwrites (s : InMemoryStore) (i n1 n2 : str)
    (cs1 cs2 : list DocChunk) :
  upsert_doc (upsert_doc s i n1 cs1) i n2 cs2 = upsert_doc s i n2 cs2.
Proof. unfold upsert_doc. simpl. now rewrite !dict_set_twice. Qed.

Section ReachableStore.

Variable getsizeof : str -> nat.

Lemma reachable_chunk_keys_distinct (ops : list store_op) :
  NoDup (dict_keys (chunks (run_ops getsizeof ops new_store))).
Proof.
  rewrite <- (run_ops_keys_agree getsizeof ops new_store) by reflexivity.
  apply run_ops_keys_distinct. constructor.
Qed.

(** X2. In a store built by the operations, after [remove_doc] the id has
    no chunks and is not listed any more, and every other id keeps its
    chunks. *)
Theorem remove_doc_forgets (ops : list store_op) (i : str) :
  let s := run_ops getsizeof ops new_store in
  let s' := remove_doc s i in
  get_chunks s' i = []
  /\ ~ In i (map fst (list_docs s'))
  /\ (forall j, j <> i -> get_chunks s' j = get_chunks s j).
Proof.
  intros s s'. repeat split.
  - unfold s', get_chunks, remove_doc. simpl.
    rewrite dict_get_pop_same; [reflexivity|].
    apply reachable_chunk_keys_distinct.
  - unfold s', list_docs, remove_doc. simpl.
    apply (dict_pop_removes i (docs s)).
    apply run_ops_keys_distinct. constructor.
  - intros j Hj. unfold s', get_chunks, remove_doc. simpl.
    now rewrite dict_get_pop_other.
Qed.

(** X5. In a store built by the operations no document id is listed
    twice. *)
Theorem list_docs_ids_distinct (ops : list store_op) :
  NoDup (map fst (list_docs (run_ops getsizeof ops new_store))).
Proof. apply run_ops_keys_distinct. constructor. Qed.

End ReachableStore.

Section StoreCounts.

Variable getsizeof : str -> nat.

Definition chunk_total (d : dict (list DocChunk)) : nat :=
  list_sum (map (@length DocChunk) (dict_values d)).

Definition chunks_of (d : dict (list DocChunk)) (i : str) : list DocChunk :=
  match dict_get i d with Some cs => cs | None => [] end.

Lemma chunk_total_set (d : dict (list DocChunk)) (i : str)
    (cs : list DocChunk) :
  chunk_total (dict_set i cs d) + length (chunks_of d i)
  = chunk_total d + length cs.
Proof.
  unfold chunk_total, chunks_of.
  induction d as [|[k v] d IH]; simpl; [lia|].
  destruct (str_eqb i k); simpl; lia.
Qed.

Lemma chunk_total_pop (d : dict (list DocChunk)) (i : str) :
  chunk_total (dict_pop i d) + length (chunks_of d i) = chunk_total d.
Proof.
  unfold chunk_total, chunks_of.
  induction d as [|[k v] d IH]; simpl; [lia|].
  destruct (str_eqb i k); simpl; lia.
Qed.

(** X7. The total chunk count follows the operations: an upsert replaces
    the count of the chunks the id had (none for a new id) by the count of
    the new chunks, and a removal subtracts the count of the chunks the id
    had. *)
Theorem get_total_chunks_accounting (s : InMemoryStore) (i name : str)
    (cs : list DocChunk) :
  get_total_chunks (upsert_doc s i name cs) + length (get_chunks s i)
  = get_total_chunks s + length cs
  /\ get_total_chunks (remove_doc s i) + length (get_chunks s i)
     = get_total_chunks s.
Proof.
  split.
  - apply (chunk_total_set (chunks s) i cs).
  - apply (chunk_total_pop (chunks s) i).
Qed.

(** With the same distinct keys in both dictionaries, looking the keys of
    one up in the other gives the values of the other, in order. *)
Lemma aligned_lookup {V W} (d : dict V) (e : dict W) :
  dict_keys d = dict_keys e -> NoDup (dict_keys d) ->
  map (fun kv => dict_get (fst kv) e) d = map Some (dict_values e).
Proof.
  revert e. induction d as [|[k v] d IH]; intros [|[k' w] e] Hk Hnd;
    try discriminate Hk; [reflexivity|].
  injection Hk as <- Hk. inversion Hnd as [|? ? Hnot Hd]; subst.
  simpl. rewrite str_eqb_refl. f_equal.
  rewrite <- (IH e Hk Hd). apply map_ext_in. intros [j x] Hin. simpl.
  rewrite str_eqb_neq; [reflexivity|].
  intros ->. apply Hnot. apply (in_map fst) in Hin. exact Hin.
Qed.

(** X8. In a store built by the operations the statistics are consistent:
    [total_docs] is the number of listed documents, the per-document
    entries follow [list_docs] in order, each with the length of what
    [get_chunks] returns for it, and their counts add up to
    [total_chunks]. *)
Theorem get_statistics_consistent (ops : list store_op) :
  let s := run_ops getsizeof ops new_store in
  let st := get_statistics getsizeof s in
  total_docs st = length (list_docs s)
  /\ map (fun e => (stat_doc_id e, stat_doc_name e)) (stat_docs st)
     = list_docs s
  /\ map num_chunks (stat_docs st)
     = map (fun kv => length (get_chunks s (fst kv))) (list_docs s)
  /\ total_chunks st = list_sum (map num_chunks (stat_docs st))
  /\ total_chunks st = get_total_chunks s.
Proof.
  intros s st. unfold st, get_statistics, list_docs. cbn [total_docs
    stat_docs total_chunks]. rewrite !map_map. cbn [stat_doc_id
    stat_doc_name num_chunks].
  repeat split.
  - rewrite <- (map_id (docs s)) at 2. apply map_ext. now intros [k v].
  - unfold get_total_chunks.
    assert (Hk : dict_keys (docs s) = dict_keys (chunks s))
      by (apply run_ops_keys_agree; reflexivity).
    assert (Hnd : NoDup (dict_keys (docs s)))
      by (apply run_ops_keys_distinct; constructor).
    pose proof (aligned_lookup (docs s) (chunks s) Hk Hnd) as Hal.
    f_equal. unfold get_chunks.
    transitivity
      (map (fun o : option (list DocChunk) =>
              match o with Some cs => length cs | None => 0 end)
           (map Some (dict_values (chunks s)))).
    + rewrite map_map. reflexivity.
    + rewrite <- Hal, map_map. apply map_ext. intros [k v]. simpl.
      now destruct (dict_get k (chunks s)).
Qed.

End StoreCounts.

Definition sample_store : InMemoryStore :=
  upsert_doc (upsert_doc new_store (lit "d1") (lit "pets.txt")
                [chunk_cat; chunk_dog])
    (lit "d2") (lit "sea.txt") [chunk_fish].

Lemma upsert_doc_read_back_witness :
  get_chunks (upsert_doc sample_store (lit "d1") (lit "new.txt") [chunk_cat2])
    (lit "d2")
  = get_chunks sample_store (lit "d2").
Proof.
  apply (proj2 (proj2 (upsert_doc_read_back sample_store (lit "d1")
                         (lit "new.txt") [chunk_cat2]))).
  discriminate.
Defined.

Lemma remove_doc_forgets_witness :
  get_chunks
    (remove_doc
       (run_ops (@length ascii)
          [UpsertDoc (lit "d1") (lit "pets.txt") [chunk_cat];
           UpsertDoc (lit "d2") (lit "sea.txt") [chunk_fish]] new_store)
       (lit "d1")) (lit "d2")
  = get_chunks
      (run_ops (@length ascii)
         [UpsertDoc (lit "d1") (lit "pets.txt") [chunk_cat];
          UpsertDoc (lit "d2") (lit "sea.txt") [chunk_fish]] new_store)
      (lit "d2").
Proof.
  apply (proj2 (proj2 (remove_doc_forgets (@length ascii)
    [UpsertDoc (lit "d1") (lit "pets.txt") [chunk_cat];
     UpsertDoc (lit "d2") (lit "sea.txt") [chunk_fish]] (lit "d1")))).
  discriminate.
Defined.

Lemma remove_doc_absent_witness :
  remove_doc sample_store (lit "d3") = sample_store.
Proof.
  apply (remove_doc_absent sample_store (lit "d3"));
    simpl; intuition discriminate.
Defined.

Lemma upsert_doc_order_witness :
  map fst (list_docs (upsert_doc sample_store (lit "d1") (lit "x") []))
  = map fst (list_docs sample_store)
  /\ list_docs (upsert_doc sample_store (lit "d3") (lit "x") [])
     = list_docs sample_store ++ [(lit "d3", lit "x")].
Proof.
  split.
  - apply (proj1 (upsert_doc_order sample_store (lit "d1") (lit "x") [])).
    simpl. now left.
  - apply (proj2 (upsert_doc_order sample_store (lit "d3") (lit "x") [])).
    simpl. intuition discriminate.
Defined.

(** ** Retrieval: what is returned, and what the result depends on *)

Section RetrievalUse.

Lemma lower_char_idem c : lower_char (lower_char c) = lower_char c.
Proof.
  destruct c as [b0 b1 b2 b3 b4 b5 b6 b7];
    destruct b0, b1, b2, b3, b4, b5, b6, b7; reflexivity.
Qed.

Lemma lower_idem (t : str) : lower (lower t) = lower t.
Proof.
  unfold lower. rewrite map_map. apply map_ext. intros c.
  apply lower_char_idem.
Qed.

Lemma hits_length (tokens : list str) (t : str) :
  length (hits tokens t) <= length tokens.
Proof. unfold hits. apply filter_length_le. Qed.

(** X9. Every entry returned by [retrieve_top_k] pairs a chunk of the
    given list with its score, and that score is at least 1 and at most the
    number of query tokens: chunks that match no token are never
    returned. *)
Theorem retrieve_top_k_entries (query : str) (chunks : list DocChunk)
    (k : Z) (ch : DocChunk) (s : nat) :
  In (ch, s) (retrieve_top_k query chunks k) ->
  In ch chunks
  /\ s = score_chunk_optimized (tokenize query) (lower (text ch))
  /\ 1 <= s <= length (tokenize query).
Proof.
  intros Hin. rewrite retrieve_top_k_unfold in Hin.
  apply slice_In in Hin.
  apply (Permutation_in _ (sort_desc_perm _)) in Hin.
  apply scored_chunks_score in Hin as (Hc & Hs & Hpos).
  repeat split; auto; try lia.
  rewrite Hs, score_counts_hits. apply hits_length.
Qed.

Lemma retrieve_top_k_entries_witness :
  In chunk_dog [chunk_cat; chunk_dog; chunk_fish; chunk_cat2]
  /\ 2 = score_chunk_optimized (tokenize (lit "Cat or DOG"))
           (lower (text chunk_dog))
  /\ 1 <= 2 <= length (tokenize (lit "Cat or DOG")).
Proof.
  apply (retrieve_top_k_entries (lit "Cat or DOG")
           [chunk_cat; chunk_dog; chunk_fish; chunk_cat2] 2 chunk_dog 2).
  now left.
Defined.

(** X10. Asking for fewer results gives a prefix of what asking for more
    gives: for [0 <= k <= k'] the top [k] are the first [k] of the top
    [k']; in particular [k = 0] gives the empty sequence. *)
Theorem retrieve_top_k_prefix (query : str) (chunks : list DocChunk)
    (k k' : Z) :
  (0 <= k <= k')%Z ->
  retrieve_top_k query chunks k
  = firstn (Z.to_nat k) (retrieve_top_k query chunks k').
Proof.
  intros Hk. rewrite !retrieve_top_k_unfold.
  rewrite !slice_to_nonneg by lia. rewrite firstn_firstn.
  f_equal. lia.
Qed.

Lemma retrieve_top_k_prefix_witness :
  retrieve_top_k (lit "Cat or DOG")
    [chunk_cat; chunk_dog; chunk_fish; chunk_cat2] 1
  = firstn (Z.to_nat 1)
      (retrieve_top_k (lit "Cat or DOG")
         [chunk_cat; chunk_dog; chunk_fish; chunk_cat2] 3).
Proof.
  apply (retrieve_top_k_prefix (lit "Cat or DOG")
           [chunk_cat; chunk_dog; chunk_fish; chunk_cat2] 1 3).
  lia.
Defined.

(** The sort, the filter and the slice carry along whatever is attached to
    a score. *)

Variable f : DocChunk -> DocChunk.

Definition on_chunk (p : DocChunk * nat) : DocChunk * nat :=
  (f (fst p), snd p).

Lemma insert_desc_on_chunk x l :
  insert_desc (on_chunk x) (map on_chunk l) = map on_chunk (insert_desc x l).
Proof.
  induction l as [|y r IH]; [reflexivity|]. simpl.
  destruct (snd y <=? snd x); simpl; [reflexivity | now rewrite IH].
Qed.

Lemma sort_desc_on_chunk l :
  sort_desc (map on_chunk l) = map on_chunk (sort_desc l).
Proof.
  induction l as [|x l IH]; [reflexivity|]. simpl.
  fold (sort_desc (map on_chunk l)). fold (sort_desc l).
  now rewrite IH, insert_desc_on_chunk.
Qed.

Lemma slice_map {A B} (g : A -> B) (l : list A) (lo hi : Z) :
  slice (map g l) lo hi = map g (slice l lo hi).
Proof.
  unfold slice. rewrite length_map.
  now rewrite <- firstn_map, <- skipn_map.
Qed.

Lemma scored_chunks_on_chunk tokens chunks :
  (forall ch, lower (text (f ch)) = lower (text ch)) ->
  scored_chunks tokens (map f chunks)
  = map on_chunk (scored_chunks tokens chunks).
Proof.
  intros Hf. unfold scored_chunks.
  induction chunks as [|ch chunks IH]; [reflexivity|]. simpl.
  rewrite Hf.
  destruct (0 <? score_chunk_optimized tokens (lower (text ch))); simpl;
    now rewrite IH.
Qed.

(** X11. Retrieval looks at a chunk only through its lower-cased text, and
    at the query only through its lower-cased form: changing the chunks in
    any way that keeps their lower-cased text (another letter case, other
    ids or names) gives the same ranking with the same scores, and
    lower-casing the query changes nothing. *)
Theorem retrieve_top_k_case_insensitive (query : str)
    (chunks : list DocChunk) (k : Z) :
  (forall ch, lower (text (f ch)) = lower (text ch)) ->
  retrieve_top_k query (map f chunks) k
  = map on_chunk (retrieve_top_k query chunks k)
  /\ retrieve_top_k (lower query) chunks k = retrieve_top_k query chunks k.
Proof.
  intros Hf. split.
  - rewrite !retrieve_top_k_unfold. unfold slice_to.
    rewrite scored_chunks_on_chunk by exact Hf.
    now rewrite sort_desc_on_chunk, slice_map.
  - rewrite !retrieve_top_k_unfold. unfold tokenize.
    now rewrite lower_idem.
Qed.

End RetrievalUse.

Definition lower_chunk (ch : DocChunk) : DocChunk :=
  mkDocChunk (doc_id ch) (doc_name ch) (chunk_id ch) (lower (text ch)).

Lemma retrieve_top_k_case_insensitive_witness :
  retrieve_top_k (lit "Cat or DOG")
    (map lower_chunk [chunk_cat; chunk_dog; chunk_fish]) 2
  = map (on_chunk lower_chunk)
      (retrieve_top_k (lit "Cat or DOG")
         [chunk_cat; chunk_dog; chunk_fish] 2)
  /\ retrieve_top_k (lower (lit "Cat or DOG"))
       [chunk_cat; chunk_dog; chunk_fish] 2
     = retrieve_top_k (lit "Cat or DOG") [chunk_cat; chunk_dog; chunk_fish] 2.
Proof.
  apply (retrieve_top_k_case_insensitive lower_chunk (lit "Cat or DOG")
           [chunk_cat; chunk_dog; chunk_fish] 2).
  intros ch. simpl. apply lower_idem.
Defined.

(** ** The sentence splitter: shape of the result, nothing but whitespace
    lost *)

(** The characters of a text that are not whitespace, in order. *)
Definition visible (t : str) : str := filter (fun c => negb (isspace c)) t.

Section SplitSentences.

Lemma visible_app (a b : str) : visible (a ++ b) = visible a ++ visible b.
Proof. apply filter_app. Qed.

Lemma visible_blank (t : str) : forallb isspace t = true -> visible t = [].
Proof.
  induction t as [|c r IH]; simpl; [reflexivity|].
  intros H. apply andb_true_iff in H as [-> Hr]. simpl. now apply IH.
Qed.

Lemma visible_nil_blank (t : str) : visible t = [] -> forallb isspace t = true.
Proof.
  induction t as [|c r IH]; simpl; [reflexivity|].
  destruct (isspace c); simpl; [exact IH | discriminate].
Qed.

(** Trimming removes whitespace only. *)
Lemma visible_strip (t : str) : visible (strip t) = visible t.
Proof.
  rewrite (strip_split t) at 2. rewrite !visible_app.
  rewrite (visible_blank (takewhile isspace t)) by apply takewhile_all.
  rewrite (visible_blank (rev _)).
  - now rewrite app_nil_r.
  - rewrite forallb_rev. apply takewhile_all.
Qed.

Lemma visible_optional_strip (t : str) :
  visible (concat (if nonempty (strip t) then [strip t] else []))
  = visible t.
Proof.
  destruct (nonempty (strip t)) eqn:E; simpl.
  - now rewrite app_nil_r, visible_strip.
  - apply nonempty_false, strip_nil in E. now rewrite visible_blank.
Qed.

Lemma recombine_trimmed (l : list str) :
  Forall (fun s => s <> [] /\ strip s = s) (recombine l).
Proof.
  revert l. fix IH 1. intros [|s [|sep rest]]; try constructor.
  simpl. destruct (nonempty (strip (s ++ sep))) eqn:E; [|apply IH].
  constructor; [|apply IH]. split; [now apply nonempty_true|].
  apply strip_idem.
Qed.

(** The sentences that the pieces of a split give: the recombined pairs,
    then the last piece when it is not blank. *)
Definition sentences_of (pieces : list str) : list str :=
  recombine pieces
  ++ (if nonempty (strip (last pieces [])) then [strip (last pieces [])]
      else []).

Lemma re_split_nonempty (fuel : nat) (piece t : str) :
  re_split fuel piece t <> [].
Proof.
  revert piece t. induction fuel as [|fuel IH]; intros piece [|c r];
    try discriminate.
  simpl. destruct (match_sentence_ending (c :: r)) as [[sep rest]|];
    [discriminate | apply IH].
Qed.

Lemma sentences_of_pair (s sep : str) (l : list str) :
  l <> [] ->
  sentences_of (s :: sep :: l)
  = (if nonempty (strip (s ++ sep)) then [strip (s ++ sep)] else [])
    ++ sentences_of l.
Proof.
  intros Hl. unfold sentences_of.
  replace (last (s :: sep :: l) []) with (last l [])
    by (destruct l; [congruence | reflexivity]).
  cbn [recombine]. now destruct (nonempty (strip (s ++ sep))).
Qed.

Lemma sentences_of_visible (fuel : nat) (piece t : str) :
  visible (concat (sentences_of (re_split fuel piece t)))
  = visible (piece ++ t).
Proof.
  revert piece t. induction fuel as [|fuel IH]; intros piece [|c r].
  - unfold sentences_of. simpl. rewrite app_nil_r.
    apply visible_optional_strip.
  - unfold sentences_of. simpl. apply visible_optional_strip.
  - unfold sentences_of. simpl. rewrite app_nil_r.
    apply visible_optional_strip.
  - cbn [re_split].
    destruct (match_sentence_ending (c :: r)) as [[sep rest]|] eqn:E.
    + apply match_sentence_ending_parts in E as [Ht _]. rewrite Ht.
      rewrite sentences_of_pair by apply re_split_nonempty.
      rewrite concat_app, visible_app, visible_optional_strip, IH.
      simpl. now rewrite app_assoc, <- !visible_app.
    + rewrite IH. now rewrite <- app_assoc.
Qed.

(** No match of the pattern starts inside [piece] when [t] follows. *)
Definition unmatched (piece t : str) : Prop :=
  forall a b, piece = a ++ b -> b <> [] ->
    match_sentence_ending (b ++ t) = None.

Lemma unmatched_search (piece : str) :
  unmatched piece [] -> re_search piece = false.
Proof.
  induction piece as [|c r IH]; intros H; [reflexivity|].
  cbn [re_search].
  pose proof (H [] (c :: r) eq_refl ltac:(discriminate)) as H0.
  rewrite app_nil_r in H0. rewrite H0. apply IH.
  intros a b Hab Hb. apply (H (c :: a) b); [now rewrite Hab | exact Hb].
Qed.

Lemma unmatched_step (piece : str) (c : ascii) (r : str) :
  unmatched piece (c :: r) -> match_sentence_ending (c :: r) = None ->
  unmatched (piece ++ [c]) r.
Proof.
  intros H Hc a b Hab Hb.
  destruct (@exists_last _ b Hb) as (b' & x & ->).
  rewrite app_assoc in Hab. apply app_inj_tail in Hab as [-> <-].
  rewrite <- app_assoc. simpl.
  destruct b' as [|y b']; [exact Hc|].
  apply (H a (y :: b') eq_refl). discriminate.
Qed.

(** The guard [not sentence_endings.search(sentences[-1])] always holds:
    the last piece of a split contains no match. *)
Lemma re_split_last_unmatched (fuel : nat) (piece t : str) :
  length t < fuel -> unmatched piece t ->
  re_search (last (re_split fuel piece t) []) = false.
Proof.
  revert piece t. induction fuel as [|fuel IH]; intros piece t Hf Hu;
    [lia|].
  destruct t as [|c r]; [now apply unmatched_search|].
  simpl in Hf. cbn [re_split].
  destruct (match_sentence_ending (c :: r)) as [[sep rest]|] eqn:E.
  - pose proof (re_split_nonempty fuel [] rest) as Hne.
    apply match_sentence_ending_parts in E as [_ Hlen]. simpl in Hlen.
    assert (Hr : re_search (last (re_split fuel [] rest) []) = false).
    { apply IH; [lia|]. intros a b Hab Hb. destruct a; simpl in Hab;
        [now subst b | discriminate]. }
    destruct (re_split fuel [] rest) as [|x l]; [congruence|]. exact Hr.
  - apply IH; [lia|]. now apply unmatched_step.
Qed.

Lemma split_into_sentences_pieces (t : str) :
  let result := sentences_of (re_split (S (length t)) [] t) in
  split_into_sentences t = if nonempty result then result else [t].
Proof.
  unfold split_into_sentences, sentences_of.
  rewrite re_split_last_unmatched;
    [| lia | intros a b Hab Hb; destruct a; simpl in Hab;
             [now subst b | discriminate]].
  pose proof (re_split_nonempty (S (length t)) [] t) as Hne.
  destruct (re_split (S (length t)) [] t) as [|x l] eqn:E; [congruence|].
  cbn [nonempty negb andb].
  destruct (nonempty (strip (last (x :: l) []))); [reflexivity|].
  now rewrite app_nil_r.
Qed.

(** X12. [split_into_sentences] never returns an empty list. Either it
    falls back to the whole text as the only sentence, or every sentence
    is non-empty and has no whitespace at either end. In both cases the
    sentences, in order, hold exactly the non-whitespace characters of the
    text: splitting loses whitespace only. *)
Theorem split_into_sentences_shape (t : str) :
  split_into_sentences t <> []
  /\ (split_into_sentences t = [t]
      \/ Forall (fun s => s <> [] /\ strip s = s) (split_into_sentences t))
  /\ visible (concat (split_into_sentences t)) = visible t.
Proof.
  rewrite split_into_sentences_pieces. cbv zeta.
  set (result := sentences_of _).
  assert (Hv : visible (concat result) = visible t)
    by apply (sentences_of_visible (S (length t)) [] t).
  assert (Htrim : Forall (fun s => s <> [] /\ strip s = s) result).
  { unfold result, sentences_of. apply Forall_app. split.
    - apply recombine_trimmed.
    - destruct (nonempty
                  (strip (last (re_split (S (length t)) [] t) []))) eqn:E;
        constructor; [|constructor].
      split; [now apply nonempty_true | apply strip_idem]. }
  destruct result as [|s l]; simpl nonempty; cbv iota.
  - repeat split; [discriminate | now left | simpl; now rewrite app_nil_r].
  - repeat split; [discriminate | now right | exact Hv].
Qed.

End SplitSentences.

(** ** The sentence mode: no sentence is lost *)

Section Coverage.

Lemma dropwhile_app_stop {A} (p : A -> bool) (a x : list A) :
  match x with [] => False | c :: _ => p c = false end ->
  dropwhile p (a ++ x) = dropwhile p a ++ x.
Proof.
  intros Hx. induction a as [|c a IH]; simpl.
  - destruct x as [|c x]; [contradiction|]. simpl. now rewrite Hx.
  - destruct (p c); [exact IH | reflexivity].
Qed.

Lemma strip_last (t : str) :
  match rev (strip t) with [] => True | c :: _ => isspace c = false end.
Proof.
  unfold strip, rstrip. rewrite rev_involutive. apply dropwhile_head.
Qed.

(** Trimming a text keeps the trimmed form of each of its parts that is
    not blank. *)
Lemma strip_keeps_part (l s r : str) :
  strip s <> [] ->
  exists l' r', strip (l ++ s ++ r) = l' ++ strip s ++ r'.
Proof.
  intros Hne.
  pose proof (strip_split s) as Hs.
  set (w1 := takewhile isspace s) in Hs.
  set (w2 := rev (takewhile isspace (rev (lstrip s)))) in Hs.
  set (core := strip s) in *.
  assert (Hhead : match core with [] => False
                  | c :: _ => isspace c = false end).
  { pose proof (strip_head s) as H. fold core in H.
    destruct core; [congruence | exact H]. }
  assert (Hlast : match rev core with [] => False
                  | c :: _ => isspace c = false end).
  { pose proof (strip_last s) as H. fold core in H.
    destruct (rev core) eqn:E; [|exact H].
    apply (f_equal (@rev ascii)) in E. rewrite rev_involutive in E.
    simpl in E. congruence. }
  rewrite Hs. unfold strip at 1, lstrip, rstrip.
  replace (l ++ (w1 ++ core ++ w2) ++ r)
    with ((l ++ w1) ++ (core ++ w2 ++ r))
    by (now rewrite <- !app_assoc).
  rewrite dropwhile_app_stop
    by (destruct core; [contradiction | exact Hhead]).
  set (l' := dropwhile isspace (l ++ w1)).
  replace (rev (l' ++ core ++ w2 ++ r))
    with (rev (w2 ++ r) ++ (rev core ++ rev l'))
    by (now rewrite !rev_app_distr, <- !app_assoc).
  rewrite dropwhile_app_stop
    by (destruct (rev core); [contradiction | exact Hlast]).
  rewrite !rev_app_distr, !rev_involutive, <- app_assoc.
  eexists; eexists; reflexivity.
Qed.

Lemma join_part (sep s : str) (cc : list str) :
  In s cc -> exists l r, join sep cc = l ++ s ++ r.
Proof.
  induction cc as [|x cc IH]; [intros []|].
  intros [->|Hin].
  - destruct cc as [|y cc].
    + exists [], []. simpl. now rewrite app_nil_r.
    + exists [], (sep ++ join sep (y :: cc)). reflexivity.
  - destruct (IH Hin) as (l & r & Hj). destruct cc as [|y cc];
      [destruct Hin|].
    exists (x ++ sep ++ l), r.
    change (join sep (x :: y :: cc)) with (x ++ sep ++ join sep (y :: cc)).
    rewrite Hj. now rewrite <- !app_assoc.
Qed.

Lemma join_visible_part (s : str) (cc : list str) :
  In s cc -> forallb isspace s = false ->
  nonempty (strip (join (lit " ") cc)) = true.
Proof.
  intros Hin Hs. apply strip_nonempty.
  destruct (join_part (lit " ") s cc Hin) as (l & r & ->).
  rewrite !forallb_app, Hs. now rewrite andb_false_r.
Qed.

Variables (chunk_size overlap : Z).

(** Every visible sentence read so far is in the chunk being built or in
    the run of sentences of an emitted chunk. *)
Definition covered (done : list str) (st : sentence_state) : Prop :=
  forall s, In s done -> forallb isspace s = false ->
    In s (current_chunk st)
    \/ exists cc, In s cc /\ In (strip (join (lit " ") cc)) (emitted st).

Lemma sentence_step_covered (done : list str) (st : sentence_state)
    (x : str) :
  covered done st ->
  covered (done ++ [x]) (sentence_step chunk_size overlap st x).
Proof.
  intros Hcov s Hin Hs.
  assert (Hold : In s done ->
    In s (current_chunk (sentence_step chunk_size overlap st x))
    \/ exists cc, In s cc
         /\ In (strip (join (lit " ") cc))
              (emitted (sentence_step chunk_size overlap st x))).
  { intros Hd. specialize (Hcov s Hd Hs). unfold sentence_step.
    destruct ((current_size st + len x >? chunk_size)%Z
              && nonempty (current_chunk st)).
    - assert (Hem : exists cc, In s cc /\
                In (strip (join (lit " ") cc))
                  (if nonempty (strip (join (lit " ") (current_chunk st)))
                   then emitted st
                          ++ [strip (join (lit " ") (current_chunk st))]
                   else emitted st)).
      { destruct Hcov as [Hc|(cc & Hc & He)].
        - exists (current_chunk st). split; [exact Hc|].
          rewrite (join_visible_part s _ Hc Hs).
          apply in_or_app. right. now left.
        - exists cc. split; [exact Hc|].
          destruct (nonempty _); [apply in_or_app; now left | exact He]. }
      right.
      destruct (len (join (lit " ") (current_chunk st)) >? overlap)%Z;
        [destruct (overlap_loop _ _ _ _)|]; exact Hem.
    - destruct Hcov as [Hc|Hc]; [left | right; exact Hc].
      simpl. apply in_or_app. now left. }
  apply in_app_or in Hin as [Hd|[<-|[]]]; [now apply Hold|].
  left. unfold sentence_step. simpl. apply in_or_app. right. now left.
Qed.

Lemma sentence_loop_covered (ss done : list str) (st : sentence_state) :
  covered done st ->
  covered (done ++ ss)
    (fold_left (sentence_step chunk_size overlap) ss st).
Proof.
  revert done st. induction ss as [|x ss IH]; intros done st H; simpl.
  - now rewrite app_nil_r.
  - replace (done ++ x :: ss) with ((done ++ [x]) ++ ss)
      by (now rewrite <- app_assoc).
    apply IH. now apply sentence_step_covered.
Qed.

(** The sentence loop loses no sentence. *)
Lemma sentence_chunks_cover (t s : str) :
  In s (split_into_sentences t) -> forallb isspace s = false ->
  exists c cc,
    In c (sentence_chunks t chunk_size overlap)
    /\ In s cc /\ c = strip (join (lit " ") cc)
    /\ contains c (strip s) = true.
Proof.
  intros Hin Hs.
  assert (Hc : exists cc, In s cc
            /\ In (strip (join (lit " ") cc))
                 (sentence_chunks t chunk_size overlap)).
  { unfold sentence_chunks.
    pose proof (sentence_loop_covered (split_into_sentences t) []
                  (SentenceState [] 0%Z [])) as Hcov.
    simpl in Hcov. specialize (Hcov ltac:(intros x []) s Hin Hs).
    set (st := fold_left _ _ _) in *.
    destruct Hcov as [Hcur|(cc & Hcc & Hem)].
    - exists (current_chunk st). split; [exact Hcur|].
      destruct (current_chunk st) as [|y l] eqn:E; [destruct Hcur|].
      cbn [nonempty]. rewrite (join_visible_part s _ Hcur Hs).
      apply in_or_app. right. now left.
    - exists cc. split; [exact Hcc|].
      destruct (nonempty (current_chunk st)); [|exact Hem].
      destruct (nonempty _); [apply in_or_app; now left | exact Hem]. }
  destruct Hc as (cc & Hcc & Hy).
  exists (strip (join (lit " ") cc)), cc. repeat split; auto.
  destruct (join_part (lit " ") s cc Hcc) as (l & r & ->).
  destruct (strip_keeps_part l s r) as (l' & r' & ->).
  - apply nonempty_true, strip_nonempty, Hs.
  - apply contains_spec. now exists l', r'.
Qed.

End Coverage.

(** X13. The sentence mode loses no sentence: when [chunk_text] runs in
    sentence-aware mode ([chunk_size > 0], [sentence_aware] true and a text
    shorter than [100 * chunk_size]), every sentence of the text that is
    not whitespace only is one of the sentences joined into some yielded
    chunk, and its trimmed form is a contiguous part of that chunk. *)
Theorem chunk_text_keeps_sentences (t : str) (chunk_size overlap : Z)
    (fuel : nat) (s : str) :
  (0 < chunk_size)%Z -> (len t < chunk_size * 100)%Z ->
  In s (split_into_sentences t) -> forallb isspace s = false ->
  exists c cc,
    In c (yielded (chunk_text fuel t chunk_size overlap true))
    /\ In s cc /\ c = strip (join (lit " ") cc)
    /\ contains c (strip s) = true.
Proof.
  intros Hcs Hlen Hin Hs. unfold chunk_text.
  replace (chunk_size <=? 0)%Z with false by (symmetry; zbool).
  replace (len t <? chunk_size * 100)%Z with true by (symmetry; zbool).
  cbn [andb yielded].
  now apply sentence_chunks_cover.
Qed.

Lemma chunk_text_keeps_sentences_witness :
  exists c cc,
    In c (yielded (chunk_text 0 (lit "a. b. c. d. ") 4 0 true))
    /\ In (lit "c.") cc /\ c = strip (join (lit " ") cc)
    /\ contains c (strip (lit "c.")) = true.
Proof.
  apply (chunk_text_keeps_sentences (lit "a. b. c. d. ") 4 0 0 (lit "c."));
    [lia | vm_compute; reflexivity | vm_compute; tauto | reflexivity].
Defined.

(** ** The character mode: when it ends and when it does not *)

Section CharModeEnds.

Variables (t : str) (chunk_size overlap : Z).

Lemma char_loop_ends (fuel : nat) (start : Z) :
  (0 < chunk_size)%Z -> (overlap <= 0)%Z -> (0 <= start)%Z ->
  (len t - start < Z.of_nat fuel)%Z ->
  exhausted (char_loop fuel t chunk_size overlap start) = true.
Proof.
  intros Hcs Hov. revert start.
  induction fuel as [|fuel IH]; intros start H0 Hf; simpl.
  - replace (start <? len t)%Z with false by (symmetry; zbool).
    reflexivity.
  - destruct (start <? len t)%Z eqn:Es; [|reflexivity].
    apply Z.ltb_lt in Es.
    set (end_ := Z.min (len t) (start + chunk_size)).
    assert (He : (start < end_)%Z) by (unfold end_; lia).
    replace (end_ - overlap <? 0)%Z with false by (symmetry; zbool).
    destruct (end_ - overlap >=? len t)%Z; [reflexivity|]. simpl.
    apply IH; lia.
Qed.

(** Once the loop has ended, more turns change nothing. *)
Lemma char_loop_more_fuel (fuel extra : nat) (start : Z) :
  exhausted (char_loop fuel t chunk_size overlap start) = true ->
  char_loop (fuel + extra) t chunk_size overlap start
  = char_loop fuel t chunk_size overlap start.
Proof.
  revert start. induction fuel as [|fuel IH]; intros start; simpl.
  - destruct (start <? len t)%Z eqn:Es; [discriminate|].
    intros _. destruct extra; simpl; now rewrite Es.
  - destruct (start <? len t)%Z; [|reflexivity].
    set (start2 := if (_ <? 0)%Z then 0%Z else _).
    destruct (start2 >=? len t)%Z; [reflexivity|]. simpl.
    intros H. now rewrite (IH _ H).
Qed.

End CharModeEnds.

(** X14. Without a positive overlap the character mode ends: for
    [chunk_size > 0] and [overlap <= 0] the generator is exhausted after at
    most [len(text) + 1] turns of the loop, and it yields the same chunks
    however many more turns it is allowed. *)
Theorem chunk_text_char_mode_ends (t : str) (chunk_size overlap : Z)
    (extra : nat) :
  (0 < chunk_size)%Z -> (overlap <= 0)%Z ->
  exhausted (chunk_text (S (length t)) t chunk_size overlap false) = true
  /\ chunk_text (S (length t) + extra) t chunk_size overlap false
     = chunk_text (S (length t)) t chunk_size overlap false.
Proof.
  intros Hcs Hov. rewrite !chunk_text_char_mode by lia.
  assert (H : exhausted
                (char_loop (S (length t)) t chunk_size overlap 0) = true)
    by (apply char_loop_ends; unfold len; lia).
  split; [exact H | now apply char_loop_more_fuel].
Qed.

Lemma chunk_text_char_mode_ends_witness :
  exhausted (chunk_text (S (length (lit "abcdefghij"))) (lit "abcdefghij")
               4 0 false) = true
  /\ chunk_text (S (length (lit "abcdefghij")) + 7) (lit "abcdefghij")
       4 0 false
     = chunk_text (S (length (lit "abcdefghij"))) (lit "abcdefghij")
         4 0 false.
Proof.
  apply (chunk_text_char_mode_ends (lit "abcdefghij") 4 0 7); lia.
Defined.

(** X15. With a positive overlap the character mode never ends on a
    non-empty text, whether it was asked for ([sentence_aware] false) or
    entered because the text has at least [100 * chunk_size] characters:
    the generator is not exhausted after any number of turns.  The overlap
    that counts is the one left by the clamp, which is positive when
    [overlap < chunk_size] or [chunk_size >= 3]. *)
Theorem chunk_text_never_ends (t : str) (chunk_size overlap : Z)
    (sentence_aware : bool) (fuel : nat) :
  (0 < chunk_size)%Z -> (0 < overlap)%Z ->
  (overlap < chunk_size \/ 3 <= chunk_size)%Z ->
  t <> [] ->
  sentence_aware = false \/ (chunk_size * 100 <= len t)%Z ->
  exhausted (chunk_text fuel t chunk_size overlap sentence_aware) = false.
Proof.
  intros Hcs Hov Hclamp Ht Hmode. unfold chunk_text.
  replace (chunk_size <=? 0)%Z with false by (symmetry; zbool).
  replace (sentence_aware && (len t <? chunk_size * 100)%Z) with false.
  2:{ symmetry. destruct Hmode as [->|H]; [reflexivity|].
      apply andb_false_iff. right. zbool. }
  apply char_loop_stuck.
  - destruct (overlap >=? chunk_size)%Z eqn:E; [|exact Hov].
    rewrite Z.geb_leb in E. apply Z.leb_le in E.
    assert (1 <= chunk_size / 3)%Z
      by (apply Z.div_le_lower_bound; lia).
    lia.
  - unfold len. destruct t; [congruence | simpl; lia].
Qed.

Lemma chunk_text_never_ends_witness :
  exhausted (chunk_text 1000 (concat (repeat (lit "abcde") 60)) 3 1 true)
  = false.
Proof.
  apply (chunk_text_never_ends (concat (repeat (lit "abcde") 60)) 3 1 true
           1000); try lia; [discriminate | right; vm_compute; discriminate].
Defined.

(** ** Chunk validation: trimming and the threshold *)

Section ValidateUse.

Lemma space_not_alnum c : isspace c = true -> isalnum c = false.
Proof.
  destruct c as [b0 b1 b2 b3 b4 b5 b6 b7];
    destruct b0, b1, b2, b3, b4, b5, b6, b7; simpl; intros H;
    first [reflexivity | discriminate H].
Qed.

Lemma count_alnum_blank (w : str) :
  forallb isspace w = true -> filter isalnum w = [].
Proof.
  induction w as [|c w IH]; simpl; [reflexivity|].
  intros H. apply andb_true_iff in H as [Hc Hw].
  now rewrite (space_not_alnum c Hc), IH.
Qed.

Lemma count_alnum_strip (chunk : str) :
  count_true isalnum (strip chunk) = count_true isalnum chunk.
Proof.
  unfold count_true. rewrite (strip_split chunk) at 2.
  rewrite !filter_app.
  rewrite (count_alnum_blank (takewhile isspace chunk))
    by apply takewhile_all.
  rewrite (count_alnum_blank (rev _))
    by (rewrite forallb_rev; apply takewhile_all).
  now rewrite app_nil_r.
Qed.

(** X16. Validation does not see whitespace around a chunk: a chunk and
    its trimmed form are accepted or rejected together. *)
Theorem validate_chunk_ignores_outer_whitespace (chunk : str)
    (min_length : Z) :
  validate_chunk (strip chunk) min_length = validate_chunk chunk min_length.
Proof.
  unfold validate_chunk. rewrite strip_idem, count_alnum_strip.
  destruct (nonempty (strip chunk)) eqn:Es.
  - now rewrite (strip_nonempty_source chunk Es).
  - simpl. now rewrite orb_true_r.
Qed.

(** X17. Lowering [min_length] never rejects a chunk that was accepted,
    and with [min_length <= 0] exactly the chunks that are not whitespace
    only are accepted. *)
Theorem validate_chunk_threshold (chunk : str) (m m' : Z) :
  ((m' <= m)%Z -> validate_chunk chunk m = true ->
   validate_chunk chunk m' = true)
  /\ ((m <= 0)%Z ->
      validate_chunk chunk m = negb (forallb isspace chunk)).
Proof.
  split.
  - intros Hm. unfold validate_chunk.
    destruct (negb (nonempty chunk) || negb (nonempty (strip chunk)));
      [trivial|].
    destruct (len (strip chunk) <? m)%Z eqn:E1; [discriminate|].
    destruct (count_true isalnum chunk <? m / 2)%Z eqn:E2; [discriminate|].
    intros _. apply Z.ltb_ge in E1, E2.
    assert (m' / 2 <= m / 2)%Z by (apply Z.div_le_mono; lia).
    replace (len (strip chunk) <? m')%Z with false by (symmetry; zbool).
    now replace (count_true isalnum chunk <? m' / 2)%Z with false
      by (symmetry; zbool).
  - intros Hm. unfold validate_chunk.
    destruct (nonempty chunk) eqn:E1; simpl.
    2:{ apply nonempty_false in E1. now subst chunk. }
    destruct (nonempty (strip chunk)) eqn:E2; simpl.
    2:{ apply nonempty_false, strip_nil in E2. now rewrite E2. }
    apply strip_nonempty in E2. rewrite E2. simpl.
    replace (len (strip chunk) <? m)%Z with false
      by (symmetry; unfold len; zbool).
    assert (m / 2 <= 0)%Z by (apply Z.div_le_upper_bound; lia).
    now replace (count_true isalnum chunk <? m / 2)%Z with false
      by (symmetry; unfold count_true; zbool).
Qed.

End ValidateUse.

Lemma validate_chunk_threshold_witness :
  validate_chunk (lit "This is a valid chunk.") 5 = true
  /\ validate_chunk (lit " . ") 0 = negb (forallb isspace (lit " . ")).
Proof.
  split.
  - apply (proj1 (validate_chunk_threshold (lit "This is a valid chunk.")
                    10 5)); [lia | reflexivity].
  - apply (proj2 (validate_chunk_threshold (lit " . ") 0 0)). lia.
Defined.

(** ** The text normaliser: what it changes and what it produces *)

Section CleanTextUse.

Lemma blank_is_space c : is_blank c = true -> isspace c = true.
Proof.
  unfold is_blank. intros H. apply orb_true_iff in H as [H|H];
    apply Ascii.eqb_eq in H; now subst c.
Qed.

Lemma newline_is_space c : is_newline c = true -> isspace c = true.
Proof.
  unfold is_newline. intros H. apply Ascii.eqb_eq in H. now subst c.
Qed.

Lemma sub_blank_runs_visible (t : str) (b : bool) :
  visible (sub_blank_runs b t) = visible t.
Proof.
  revert b. induction t as [|c r IH]; intros b; simpl; [reflexivity|].
  destruct (is_blank c) eqn:E.
  - rewrite (blank_is_space c E). simpl. destruct b; simpl; apply IH.
  - simpl. now rewrite IH.
Qed.

Lemma sub_newline_runs_visible (t : str) (k : nat) :
  visible (sub_newline_runs k t) = visible t.
Proof.
  revert k. induction t as [|c r IH]; intros k; simpl; [reflexivity|].
  destruct (is_newline c) eqn:E.
  - rewrite (newline_is_space c E). simpl.
    destruct (k <? 2); simpl; [rewrite (newline_is_space c E); simpl|];
      apply IH.
  - simpl. now rewrite IH.
Qed.

Lemma sub_blank_runs_length (t : str) (b : bool) :
  length (sub_blank_runs b t) <= length t.
Proof.
  revert b. induction t as [|c r IH]; intros b; simpl; [lia|].
  destruct (is_blank c); [destruct b|]; simpl;
    [specialize (IH true) | specialize (IH true) | specialize (IH false)];
    lia.
Qed.

Lemma sub_newline_runs_length (t : str) (k : nat) :
  length (sub_newline_runs k t) <= length t.
Proof.
  revert k. induction t as [|c r IH]; intros k; simpl; [lia|].
  destruct (is_newline c); [destruct (k <? 2)|]; simpl;
    [specialize (IH (S k)) | specialize (IH (S k)) | specialize (IH 0)];
    lia.
Qed.

Lemma clean_text_visible (t : str) : visible (clean_text t) = visible t.
Proof.
  destruct t as [|c r]; [reflexivity|]. unfold clean_text.
  now rewrite visible_strip, sub_newline_runs_visible,
    sub_blank_runs_visible.
Qed.

(** X18. The normaliser touches whitespace only: the non-whitespace
    characters of the result are those of the input, in the same order; the
    result is never longer than the input; and it is empty exactly when the
    input is empty or whitespace only. *)
Theorem clean_text_keeps_visible (t : str) :
  visible (clean_text t) = visible t
  /\ length (clean_text t) <= length t
  /\ (clean_text t = [] <-> forallb isspace t = true).
Proof.
  split; [apply clean_text_visible|]. split.
  - destruct t as [|c r]; [simpl; lia|]. unfold clean_text.
    pose proof (strip_length
      (sub_newline_runs 0 (sub_blank_runs false (c :: r)))).
    pose proof (sub_newline_runs_length (sub_blank_runs false (c :: r)) 0).
    pose proof (sub_blank_runs_length (c :: r) false). lia.
  - split; intros H.
    + apply visible_nil_blank. rewrite <- clean_text_visible, H.
      reflexivity.
    + rewrite <- clean_text_stripped. apply strip_nil.
      apply visible_nil_blank. rewrite clean_text_visible.
      now apply visible_blank.
Qed.

Lemma clean_text_normal (t : str) :
  blank_normal (clean_text t) = true
  /\ newline_normal 0 (clean_text t) = true.
Proof.
  destruct t as [|c r]; [split; reflexivity|]. unfold clean_text. split.
  - apply strip_keeps_blank_normal, sub_newline_keeps_blank_normal,
      sub_blank_runs_normal.
  - apply (strip_keeps_newline_normal _ 0).
    apply (sub_newline_runs_normal _ 0).
Qed.

Lemma blank_normal_no_tab (t : str) :
  blank_normal t = true -> ~ In "009"%char t.
Proof.
  induction t as [|c r IH]; simpl; [tauto|].
  intros H. apply andb_true_iff in H as [Hc Hr].
  intros [->|Hin]; [|now apply IH]. simpl in Hc. discriminate.
Qed.

(** X19. The result of the normaliser contains no tab, no two spaces in a
    row, no three newlines in a row, and no whitespace at either end. *)
Theorem clean_text_normal_form (t : str) :
  let out := clean_text t in
  ~ In "009"%char out
  /\ (forall l r, out <> l ++ lit "  " ++ r)
  /\ (forall l r, out <> l ++ ["010"; "010"; "010"]%char ++ r)
  /\ strip out = out.
Proof.
  destruct (clean_text_normal t) as [Hb Hn]. cbv zeta. repeat split.
  - now apply blank_normal_no_tab.
  - intros l r E. rewrite E in Hb. apply blank_normal_app_r in Hb.
    discriminate Hb.
  - intros l r E. rewrite E in Hn. apply newline_normal_app_r in Hn.
    discriminate Hn.
  - apply clean_text_stripped.
Qed.

End CleanTextUse.

(** ** PDF extraction: order of the checks, shape of the result *)

Section ReadPdf.

Lemma pages_to_process_nonzero (total : Z) (max_pages : option Z) :
  (0 < total)%Z -> pages_to_process total max_pages <> 0%Z.
Proof.
  intros Ht. unfold pages_to_process. destruct max_pages as [m|]; [|lia].
  destruct (m =? 0)%Z eqn:E; [lia|]. apply Z.eqb_neq in E. lia.
Qed.

(** After the checks, the extraction is the end stage applied to the texts
    of the readable pages among those processed. *)
Lemma read_pdf_bytes_parsed (file_obj : pdf_file) (max_size_mb : Q)
    (max_pages : option Z) (progress_callback : option callback)
    (batch_size : Z) (pages : list page) :
  validate_file_size file_obj max_size_mb = Ok tt ->
  parse file_obj = Reader pages -> pages <> [] ->
  read_pdf_bytes file_obj max_size_mb max_pages progress_callback batch_size
  = finish_pdf
      (readable_texts
         (firstn
            (Z.to_nat (pages_to_process (Z.of_nat (length pages)) max_pages))
            pages)).
Proof.
  intros Hsize Hparse Hne. unfold read_pdf_bytes, validate_pdf_integrity.
  rewrite Hsize, Hparse.
  destruct pages as [|p ps]; [congruence|]. cbn [length Nat.eqb].
  set (n := pages_to_process _ _).
  assert (Hn : n <> 0%Z)
    by (apply pages_to_process_nonzero; simpl length; lia).
  apply Z.eqb_neq in Hn. rewrite Hn.
  now rewrite page_loop_text_parts.
Qed.

Lemma read_pdf_bytes_unparsed (file_obj : pdf_file) (max_size_mb : Q)
    (max_pages : option Z) (progress_callback : option callback)
    (batch_size : Z) :
  validate_file_size file_obj max_size_mb = Ok tt ->
  match parse file_obj with Reader (_ :: _) => False | _ => True end ->
  read_pdf_bytes file_obj max_size_mb max_pages progress_callback batch_size
  = match parse file_obj with
    | RaisesPdfReadError => Raise CorruptOrInvalid
    | _ => Raise UnableToRead
    end.
Proof.
  intros Hsize Hp. unfold read_pdf_bytes, validate_pdf_integrity.
  rewrite Hsize. destruct (parse file_obj) as [| |[|p ps]];
    try reflexivity. contradiction.
Qed.

Lemma validate_file_size_cases (f : pdf_file) (max_size_mb : Q) :
  validate_file_size f max_size_mb = Ok tt
  \/ validate_file_size f max_size_mb = Raise FileTooLarge
  \/ validate_file_size f max_size_mb = Raise FileEmpty.
Proof.
  unfold validate_file_size.
  destruct (Qlt_le_dec _ _); [tauto|]. destruct (Qeq_bool _ _); tauto.
Qed.

Lemma finish_pdf_cases_all (parts : list str) :
  finish_pdf parts = Raise NoTextExtracted
  \/ finish_pdf parts = Raise NoMeaningfulText
  \/ (finish_pdf parts = Ok (clean_text (join blank_line parts))
      /\ (10 <= len (clean_text (join blank_line parts)))%Z).
Proof.
  destruct parts as [|p ps]; [now left|].
  rewrite finish_pdf_cases by discriminate.
  destruct (len _ <? 10)%Z eqn:E; [tauto|].
  apply Z.ltb_ge in E. tauto.
Qed.

(** X20. The progress callback and the batch size have no influence on
    what [read_pdf_bytes] returns or raises: a callback that raises, or a
    batch size of 0, changes nothing. *)
Theorem read_pdf_bytes_ignores_callback (file_obj : pdf_file)
    (max_size_mb : Q) (max_pages : option Z)
    (progress_callback : option callback) (batch_size : Z) :
  read_pdf_bytes file_obj max_size_mb max_pages progress_callback batch_size
  = read_pdf_bytes file_obj max_size_mb max_pages None 10.
Proof.
  unfold read_pdf_bytes.
  destruct (validate_file_size file_obj max_size_mb); [|reflexivity].
  destruct (validate_pdf_integrity file_obj); [|reflexivity].
  destruct (parse file_obj) as [| |pages]; try reflexivity.
  destruct (_ =? 0)%Z; [reflexivity|].
  now rewrite !page_loop_text_parts.
Qed.

(** X21. The size check comes first: a file larger than [max_size_mb]
    megabytes is refused with the too-large error and an empty file with
    the empty-file error, whatever the file contains; every other size
    passes the check. *)
Theorem read_pdf_bytes_size_first (file_obj : pdf_file) (max_size_mb : Q)
    (max_pages : option Z) (progress_callback : option callback)
    (batch_size : Z) :
  (Qlt max_size_mb (get_file_size_mb file_obj) ->
   read_pdf_bytes file_obj max_size_mb max_pages progress_callback
     batch_size = Raise FileTooLarge)
  /\ (size_bytes file_obj = 0%N -> Qle 0 max_size_mb ->
      read_pdf_bytes file_obj max_size_mb max_pages progress_callback
        batch_size = Raise FileEmpty)
  /\ (size_bytes file_obj <> 0%N ->
      Qle (get_file_size_mb file_obj) max_size_mb ->
      validate_file_size file_obj max_size_mb = Ok tt).
Proof.
  unfold read_pdf_bytes, validate_file_size, get_file_size_mb.
  repeat split.
  - intros Hlt. destruct (Qlt_le_dec _ _) as [_|Hle]; [reflexivity|].
    exfalso. exact (Qlt_not_le _ _ Hlt Hle).
  - intros H0 Hmax. rewrite H0.
    destruct (Qlt_le_dec _ _) as [Hlt|_]; [|reflexivity].
    exfalso. apply (Qlt_not_le _ _ Hlt).
    unfold Qle in *. simpl in *. lia.
  - intros Hne Hle.
    destruct (Qlt_le_dec _ _) as [Hlt|_];
      [exfalso; exact (Qlt_not_le _ _ Hlt Hle)|].
    destruct (Qeq_bool _ _) eqn:E; [|reflexivity].
    apply Qeq_bool_iff in E. unfold Qeq in E. simpl in E. lia.
Qed.

Lemma read_pdf_bytes_size_first_witness :
  read_pdf_bytes (mkPdfFile 104857600 (Reader [Page (Extracted (lit "x"))]))
    (Qmake 50 1) None None 10 = Raise FileTooLarge
  /\ read_pdf_bytes (mkPdfFile 0 RaisesOther) (Qmake 50 1) None None 10
     = Raise FileEmpty
  /\ validate_file_size ten_pages (Qmake 50 1) = Ok tt.
Proof.
  split; [|split].
  - apply (proj1 (read_pdf_bytes_size_first
             (mkPdfFile 104857600 (Reader [Page (Extracted (lit "x"))]))
             (Qmake 50 1) None None 10)). reflexivity.
  - apply (proj1 (proj2 (read_pdf_bytes_size_first
             (mkPdfFile 0 RaisesOther) (Qmake 50 1) None None 10)));
      [reflexivity | discriminate].
  - apply (proj2 (proj2 (read_pdf_bytes_size_first ten_pages (Qmake 50 1)
             None None 10))); [discriminate | discriminate].
Defined.

(** X22. Whenever [read_pdf_bytes] returns a text, the text has at least
    10 characters, has no whitespace at either end, and is already
    normalised: normalising it again gives the same text. *)
Theorem read_pdf_bytes_result_normalised (file_obj : pdf_file)
    (max_size_mb : Q) (max_pages : option Z)
    (progress_callback : option callback) (batch_size : Z) (t : str) :
  read_pdf_bytes file_obj max_size_mb max_pages progress_callback batch_size
  = Ok t ->
  (10 <= len t)%Z /\ strip t = t /\ clean_text t = t.
Proof.
  unfold read_pdf_bytes.
  destruct (validate_file_size file_obj max_size_mb); [|discriminate].
  destruct (validate_pdf_integrity file_obj); [|discriminate].
  destruct (parse file_obj) as [| |pages]; try discriminate.
  destruct (_ =? 0)%Z; [discriminate|].
  set (parts := text_parts _).
  destruct (finish_pdf_cases_all parts) as [H|[H|[H Hlen]]];
    rewrite H; try discriminate.
  intros E. injection E as <-.
  destruct (clean_text_normal (join blank_line parts)) as [Hb Hn].
  repeat split.
  - exact Hlen.
  - apply clean_text_stripped.
  - apply clean_text_fixed; auto. apply clean_text_stripped.
Qed.

Lemma read_pdf_bytes_result_normalised_witness :
  (10 <= len (lit "a b c d e f"))%Z
  /\ strip (lit "a b c d e f") = lit "a b c d e f"
  /\ clean_text (lit "a b c d e f") = lit "a b c d e f".
Proof.
  apply (read_pdf_bytes_result_normalised
           (mkPdfFile 4096 (Reader [Page (Extracted (lit "a b c d e f"))]))
           (Qmake 50 1) None None 10 (lit "a b c d e f")).
  reflexivity.
Defined.

(** X23. [read_pdf_bytes] never raises the no-pages-to-process error: a
    file that parses to no page is refused earlier, as unreadable, and for
    a file with pages the number of pages to process is never 0. *)
Theorem read_pdf_bytes_no_pages_unreachable (file_obj : pdf_file)
    (max_size_mb : Q) (max_pages : option Z)
    (progress_callback : option callback) (batch_size : Z) :
  read_pdf_bytes file_obj max_size_mb max_pages progress_callback batch_size
  <> Raise NoPagesToProcess
  /\ (validate_file_size file_obj max_size_mb = Ok tt ->
      parse file_obj = Reader [] ->
      read_pdf_bytes file_obj max_size_mb max_pages progress_callback
        batch_size = Raise UnableToRead).
Proof.
  split.
  - destruct (validate_file_size_cases file_obj max_size_mb)
      as [Hs|[Hs|Hs]];
      try (unfold read_pdf_bytes; rewrite Hs; discriminate).
    destruct (parse file_obj) as [| |[|p ps]] eqn:Hp;
      try (rewrite read_pdf_bytes_unparsed by (try rewrite Hp; auto);
           rewrite Hp; discriminate).
    rewrite (read_pdf_bytes_parsed file_obj max_size_mb max_pages
               progress_callback batch_size (p :: ps) Hs Hp)
      by discriminate.
    destruct (finish_pdf_cases_all
                (readable_texts
                   (firstn
                      (Z.to_nat
                         (pages_to_process (Z.of_nat (length (p :: ps)))
                            max_pages)) (p :: ps))))
      as [H|[H|[H _]]]; rewrite H; discriminate.
  - intros Hs Hp.
    rewrite read_pdf_bytes_unparsed by (try rewrite Hp; auto).
    now rewrite Hp.
Qed.

Lemma read_pdf_bytes_no_pages_unreachable_witness :
  read_pdf_bytes (mkPdfFile 4096 (Reader [])) (Qmake 50 1) (Some 5%Z) None 10
  = Raise UnableToRead.
Proof.
  apply (proj2 (read_pdf_bytes_no_pages_unreachable
                  (mkPdfFile 4096 (Reader [])) (Qmake 50 1) (Some 5%Z)
                  None 10)); reflexivity.
Defined.

(** X24. Only the first [max_pages] pages are read: when a file parses
    to a non-empty list of pages, a second file parses to the same pages
    followed by further pages, and the size check gives both files the
    same verdict, then reading the second file with [max_pages] set to the
    number of pages of the first gives what reading the first file without
    a limit gives. *)
Theorem read_pdf_bytes_max_pages (file_obj longer : pdf_file)
    (max_size_mb : Q) (progress_callback : option callback)
    (batch_size : Z) (pages more : list page) :
  pages <> [] ->
  parse file_obj = Reader pages ->
  parse longer = Reader (pages ++ more) ->
  validate_file_size longer max_size_mb
  = validate_file_size file_obj max_size_mb ->
  read_pdf_bytes longer max_size_mb (Some (Z.of_nat (length pages)))
    progress_callback batch_size
  = read_pdf_bytes file_obj max_size_mb None progress_callback batch_size.
Proof.
  intros Hne Hp Hpl Hsame.
  destruct (validate_file_size_cases file_obj max_size_mb)
    as [Hs|[Hs|Hs]];
    try (unfold read_pdf_bytes; rewrite Hsame, Hs; reflexivity).
  rewrite (read_pdf_bytes_parsed longer max_size_mb _ progress_callback
             batch_size (pages ++ more));
    [| now rewrite Hsame | exact Hpl
     | destruct pages; [congruence | discriminate]].
  rewrite (read_pdf_bytes_parsed file_obj max_size_mb None
             progress_callback batch_size pages Hs Hp Hne).
  f_equal. f_equal. unfold pages_to_process.
  assert (Hlen : length pages <> 0)
    by (destruct pages; [congruence | discriminate]).
  replace (Z.of_nat (length pages) =? 0)%Z with false
    by (symmetry; apply Z.eqb_neq; lia).
  rewrite length_app, Z.min_r by lia.
  rewrite !Nat2Z.id, firstn_app, Nat.sub_diag, firstn_O, app_nil_r.
  now rewrite !firstn_all.
Qed.

Lemma read_pdf_bytes_max_pages_witness :
  read_pdf_bytes
    (mkPdfFile 8192
       (Reader ([Page (Extracted (lit "The first page."))]
                  ++ [Page (Extracted (lit "The second page."))])))
    (Qmake 50 1)
    (Some (Z.of_nat (length [Page (Extracted (lit "The first page."))])))
    None 10
  = read_pdf_bytes
      (mkPdfFile 4096 (Reader [Page (Extracted (lit "The first page."))]))
      (Qmake 50 1) None None 10.
Proof.
  apply (read_pdf_bytes_max_pages
           (mkPdfFile 4096 (Reader [Page (Extracted (lit "The first page."))]))
           (mkPdfFile 8192
              (Reader ([Page (Extracted (lit "The first page."))]
                         ++ [Page (Extracted (lit "The second page."))])))
           (Qmake 50 1) None 10
           [Page (Extracted (lit "The first page."))]
           [Page (Extracted (lit "The second page."))]);
    [discriminate | reflexivity | reflexivity | reflexivity].
Defined.

(** The size check comes before the page limit: a longer file that is
    above the size limit is refused although its first page alone would be
    read. *)
Example read_pdf_bytes_max_pages_size :
  read_pdf_bytes
    (mkPdfFile 62914560
       (Reader [Page (Extracted (lit "The first page."));
                Page (Extracted (lit "The second page."))]))
    (Qmake 50 1) (Some 1%Z) None 10 = Raise FileTooLarge
  /\ read_pdf_bytes
       (mkPdfFile 4096 (Reader [Page (Extracted (lit "The first page."))]))
       (Qmake 50 1) None None 10 = Ok (lit "The first page.").
Proof. split; reflexivity. Qed.

(** X25. When the file passes the checks and no processed page yields text
    that is not whitespace only, the extraction raises the
    no-text-extracted error. *)
Theorem read_pdf_bytes_no_text (file_obj : pdf_file) (max_size_mb : Q)
    (max_pages : option Z) (progress_callback : option callback)
    (batch_size : Z) (pages : list page) :
  validate_file_size file_obj max_size_mb = Ok tt ->
  parse file_obj = Reader pages -> pages <> [] ->
  readable_texts
    (firstn (Z.to_nat (pages_to_process (Z.of_nat (length pages)) max_pages))
       pages) = [] ->
  read_pdf_bytes file_obj max_size_mb max_pages progress_callback batch_size
  = Raise NoTextExtracted.
Proof.
  intros Hs Hp Hne Hr.
  rewrite (read_pdf_bytes_parsed file_obj max_size_mb max_pages
             progress_callback batch_size pages Hs Hp Hne).
  now rewrite Hr.
Qed.

Lemma read_pdf_bytes_no_text_witness :
  read_pdf_bytes
    (mkPdfFile 4096
       (Reader [Page ExtractRaises; Page (Extracted (lit "  "));
                PageUnreadable; Page ExtractedNone]))
    (Qmake 50 1) None None 10
  = Raise NoTextExtracted.
Proof.
  apply (read_pdf_bytes_no_text _ (Qmake 50 1) None None 10
           [Page ExtractRaises; Page (Extracted (lit "  "));
            PageUnreadable; Page ExtractedNone]);
    [reflexivity | reflexivity | discriminate | reflexivity].
Defined.

End ReadPdf.

(** ** File validation: PDF header and file type *)

Section FileChecks.

Lemma slice_to_firstn {A} (l : list A) (k : nat) :
  slice_to l (Z.of_nat k) = firstn k l.
Proof. rewrite slice_to_nonneg by lia. now rewrite Nat2Z.id. Qed.

Lemma firstn_prefix_eq (b p : bytes) :
  firstn (length p) b = p <-> exists rest, b = p ++ rest.
Proof.
  split.
  - intros H. exists (skipn (length p) b).
    rewrite <- H at 1. now rewrite firstn_skipn.
  - intros [rest ->]. rewrite firstn_app, Nat.sub_diag, firstn_O, app_nil_r.
    apply firstn_all.
Qed.

(** X26. [validate_pdf_header] accepts exactly the byte strings of at
    least 5 bytes that start with [%PDF]: the four bytes [%PDF] alone are
    refused, and the test for [%PDF-] adds nothing. *)
Theorem validate_pdf_header_spec (file_bytes : bytes) :
  validate_pdf_header file_bytes = true <->
  5 <= length file_bytes /\ exists rest, file_bytes = lit "%PDF" ++ rest.
Proof.
  unfold validate_pdf_header.
  change 4%Z with (Z.of_nat 4). change 5%Z with (Z.of_nat 5).
  rewrite !slice_to_firstn.
  destruct (length file_bytes <? 5) eqn:E.
  - apply Nat.ltb_lt in E. split; [discriminate | lia].
  - apply Nat.ltb_ge in E. rewrite orb_true_iff, !str_eqb_eq.
    rewrite (firstn_prefix_eq file_bytes (lit "%PDF")).
    rewrite (firstn_prefix_eq file_bytes (lit "%PDF-")).
    split.
    + intros [H|[rest ->]]; [tauto|].
      split; [exact E|]. now exists ("-"%char :: rest).
    + tauto.
Qed.

(** X27. [validate_pdf_content] looks at the first 10 bytes only, and that
    is enough: it passes exactly when [validate_pdf_header] accepts the
    whole content. *)
Theorem validate_pdf_content_spec (file_obj : bytes) :
  validate_pdf_content file_obj
  = if validate_pdf_header file_obj then Passed else Refused NotAPdf.
Proof.
  unfold validate_pdf_content.
  change 10%Z with (Z.of_nat 10). rewrite slice_to_firstn.
  replace (validate_pdf_header (firstn 10 file_obj))
    with (validate_pdf_header file_obj);
    [now destruct (validate_pdf_header file_obj)|].
  unfold validate_pdf_header.
  change 4%Z with (Z.of_nat 4). change 5%Z with (Z.of_nat 5).
  rewrite !slice_to_firstn, !firstn_firstn. simpl Nat.min.
  rewrite length_firstn.
  destruct (Nat.min 10 (length file_obj) <? 5) eqn:E1,
           (length file_obj <? 5) eqn:E2; try reflexivity;
    apply Nat.ltb_lt in E1 || apply Nat.ltb_ge in E1;
    apply Nat.ltb_lt in E2 || apply Nat.ltb_ge in E2; lia.
Qed.

End FileChecks.

Section FileType.

Lemma endswith_spec (t suffix : str) :
  endswith t suffix = true <-> exists stem, t = stem ++ suffix.
Proof.
  unfold endswith. rewrite startswith_spec. split.
  - intros [r Hr]. exists (rev r).
    apply (f_equal (@rev ascii)) in Hr.
    now rewrite rev_involutive, rev_app_distr, rev_involutive in Hr.
  - intros [stem ->]. exists (rev stem). apply rev_app_distr.
Qed.

Lemma forallb_isspace_lower (t : str) :
  forallb isspace (lower t) = forallb isspace t.
Proof.
  induction t as [|c r IH]; simpl; [reflexivity|].
  now rewrite isspace_lower_char, IH.
Qed.

Lemma blank_test (t : str) :
  negb (nonempty t) || negb (nonempty (strip t)) = forallb isspace t.
Proof.
  destruct (nonempty (strip t)) eqn:E.
  - rewrite (strip_nonempty_source t E). simpl.
    apply strip_nonempty in E. now rewrite E.
  - rewrite orb_true_r. apply nonempty_false, strip_nil in E.
    now rewrite E.
Qed.

Lemma app_same_length {A} (a a' b b' : list A) :
  length a = length a' -> a ++ b = a' ++ b' -> a = a' /\ b = b'.
Proof.
  revert a'. induction a as [|x a IH]; intros [|y a'] Hl H;
    try discriminate Hl; [now split|].
  injection H as -> H. injection Hl as Hl.
  destruct (IH a' Hl H) as [-> ->]. now split.
Qed.

(** A suffix of a lower-cased text is itself in lower case. *)
Lemma lower_suffix (t stem ext : str) :
  lower t = stem ++ ext -> lower ext = ext.
Proof.
  intros H. pose proof (lower_idem t) as Hi. rewrite H in Hi.
  unfold lower in Hi. rewrite map_app in Hi.
  apply app_same_length in Hi; [tauto|]. apply length_map.
Qed.

(** X28. [validate_file_type] accepts a file name exactly when the name is
    not empty or whitespace only and its lower-cased form ends with one of
    the allowed extensions.  So the letter case of the file name does not
    matter, while an allowed extension that is not written in lower case
    matches no file name at all. *)
Theorem validate_file_type_spec (filename : str)
    (allowed_extensions : option (list str)) :
  let allowed :=
    match allowed_extensions with
    | None => default_extensions
    | Some l => l
    end in
  (validate_file_type filename allowed_extensions = Passed <->
   forallb isspace filename = false
   /\ exists ext stem, In ext allowed /\ lower filename = stem ++ ext)
  /\ validate_file_type (lower filename) allowed_extensions
     = validate_file_type filename allowed_extensions
  /\ (forall ext, lower ext <> ext ->
        validate_file_type filename (Some [ext]) <> Passed).
Proof.
  intros allowed.
  assert (Hspec : forall exts,
    validate_file_type filename (Some exts) = Passed <->
    forallb isspace filename = false
    /\ exists ext stem, In ext exts /\ lower filename = stem ++ ext).
  { intros exts. unfold validate_file_type. rewrite blank_test.
    destruct (forallb isspace filename); [split; [discriminate|]|].
    - intros [H _]. discriminate H.
    - destruct (existsb _ exts) eqn:E; simpl.
      + apply existsb_exists in E as (ext & Hin & He).
        apply endswith_spec in He as [stem Hs].
        split; [|reflexivity]. intros _. split; [reflexivity|].
        now exists ext, stem.
      + split; [discriminate|]. intros [_ (ext & stem & Hin & Hs)].
        assert (existsb (fun e => endswith (lower filename) e) exts = true).
        { apply existsb_exists. exists ext. split; [exact Hin|].
          apply endswith_spec. now exists stem. }
        congruence. }
  assert (Hallowed :
    validate_file_type filename allowed_extensions
    = validate_file_type filename (Some allowed))
    by (destruct allowed_extensions; reflexivity).
  split; [rewrite Hallowed; apply Hspec|]. split.
  - unfold validate_file_type.
    now rewrite !blank_test, forallb_isspace_lower, lower_idem.
  - intros ext Hext Hp. apply Hspec in Hp as [_ (e & stem & [He|[]] & Hs)].
    subst e. apply Hext. exact (lower_suffix filename stem ext Hs).
Qed.

End FileType.

Lemma validate_file_type_spec_witness :
  validate_file_type (lit "Notes.TXT") (Some [lit ".PDF"]) <> Passed.
Proof.
  apply (proj2 (proj2 (validate_file_type_spec (lit "Notes.TXT")
                         (Some [lit ".PDF"])))).
  discriminate.
Defined.

Example validate_file_type_examples :
  validate_file_type (lit "Report.PDF") None = Passed
  /\ validate_file_type (lit "notes.txt") None = Passed
  /\ validate_file_type (lit "image.png") None = Refused FileTypeNotAllowed
  /\ validate_file_type (lit "   ") None = Refused FilenameEmpty
  /\ validate_file_type (lit "a.pdf") (Some []) = Refused FileTypeNotAllowed.
Proof. repeat split. Qed.

(** ** The answer assembler *)

Definition excerpt_of (entry : DocChunk * nat) : excerpt :=
  mkExcerpt (doc_name (fst entry)) (chunk_id (fst entry))
    (text (fst entry)) (snd entry).

(** The excerpt lines of the retrieved chunks, numbered from [first + 1]. *)
Fixpoint excerpt_lines (first : nat) (entries : list (DocChunk * nat))
    : str :=
  match entries with
  | [] => []
  | entry :: rest =>
      excerpt_line first (fst entry) ++ excerpt_lines (S first) rest
  end.

(** The context put into the prompt. *)
Definition context_of (entries : list (DocChunk * nat)) : str :=
  match entries with
  | [] => no_excerpts_text
  | _ => excerpt_lines 0 entries
  end.

Section AnswerAssembler.

Lemma excerpt_loop (entries : list (DocChunk * nat)) (st : excerpt_state) :
  fold_left excerpt_step entries st
  = mkExcerptState (next_index st + length entries)
      (excerpts_so_far st ++ map excerpt_of entries)
      (context_so_far st ++ excerpt_lines (next_index st) entries).
Proof.
  revert st. induction entries as [|[ch s] rest IH]; intros [i ex ctx].
  - simpl. now rewrite Nat.add_0_r, !app_nil_r.
  - cbn [fold_left excerpt_step]. rewrite IH.
    cbn [next_index excerpts_so_far context_so_far map excerpt_lines
         length fst].
    rewrite <- !app_assoc. f_equal. lia.
Qed.

Lemma excerpt_lines_nonempty (first : nat) (entries : list (DocChunk * nat)) :
  entries <> [] -> nonempty (excerpt_lines first entries) = true.
Proof. destruct entries as [|e rest]; [congruence | reflexivity]. Qed.

Lemma retrieve_top_k_no_chunks (query : str) (k : Z) :
  retrieve_top_k query [] k = [].
Proof. rewrite retrieve_top_k_unfold. apply slice_to_nil. Qed.

Variables (system_rules groq_api_key : str).
Variable create : list message -> llm_outcome.

(** X29. With an API key, [answer_question_from_docs] always returns. Its
    [used_excerpts] are the entries of [retrieve_top_k] for the question,
    in order, whatever the language model does. The model receives the
    system rules and one user message holding the question and either the
    numbered excerpt lines or, when nothing was retrieved, the
    no-excerpts sentence. When the model call fails, the answer is the
    error text after ["Error generating answer: "].  Without an API key the
    call raises. *)
Theorem answer_question_from_docs_spec (question : str)
    (all_chunks : list DocChunk) (top_k : Z) :
  let retrieved := retrieve_top_k question all_chunks top_k in
  let messages :=
    [mkMessage (lit "system") system_rules;
     mkMessage (lit "user") (user_prompt question (context_of retrieved))] in
  (groq_api_key <> [] ->
   answer_question_from_docs system_rules groq_api_key create question
     all_chunks top_k
   = Returned
       (mkReply
          match create messages with
          | Completion content => content
          | LlmRaises error_text =>
              lit "Error generating answer: " ++ error_text
          end
          (map excerpt_of retrieved)))
  /\ (groq_api_key = [] ->
      answer_question_from_docs system_rules groq_api_key create question
        all_chunks top_k = RaisesMissingKey).
Proof.
  intros retrieved messages. unfold answer_question_from_docs.
  assert (Hr : (if negb (nonempty all_chunks) then []
                else retrieve_top_k question all_chunks top_k) = retrieved).
  { unfold retrieved. destruct all_chunks; [|reflexivity].
    simpl. symmetry. apply retrieve_top_k_no_chunks. }
  rewrite Hr.
  rewrite excerpt_loop. cbn [next_index excerpts_so_far context_so_far app].
  assert (Hc : (if negb (nonempty (excerpt_lines 0 retrieved))
                then no_excerpts_text else excerpt_lines 0 retrieved)
               = context_of retrieved)
    by (destruct retrieved; reflexivity).
  rewrite Hc.
  fold messages. split.
  - intros Hkey. destruct groq_api_key; [congruence | reflexivity].
  - now intros ->.
Qed.

(** X30. For [top_k >= 0] the reply lists at most [top_k] excerpts, each
    taken from a chunk of the given list with its name, id and text, and
    each with a score of at least 1. *)
Theorem answer_question_from_docs_excerpts (question : str)
    (all_chunks : list DocChunk) (top_k : Z) (r : reply) :
  (0 <= top_k)%Z ->
  answer_question_from_docs system_rules groq_api_key create question
    all_chunks top_k = Returned r ->
  (Z.of_nat (length (used_excerpts r)) <= top_k)%Z
  /\ Forall
       (fun e =>
          1 <= ex_score e
          /\ exists ch, In ch all_chunks
               /\ e = mkExcerpt (doc_name ch) (chunk_id ch) (text ch)
                        (score_chunk_optimized (tokenize question)
                           (lower (text ch))))
       (used_excerpts r).
Proof.
  intros Hk. unfold answer_question_from_docs.
  assert (Hr : (if negb (nonempty all_chunks) then []
                else retrieve_top_k question all_chunks top_k)
               = retrieve_top_k question all_chunks top_k).
  { destruct all_chunks; [|reflexivity].
    simpl. symmetry. apply retrieve_top_k_no_chunks. }
  rewrite Hr.
  rewrite excerpt_loop. cbn [next_index excerpts_so_far context_so_far app].
  destruct (negb (nonempty groq_api_key)); [discriminate|].
  intros E. injection E as <-. cbn [used_excerpts]. split.
  - rewrite length_map, retrieve_top_k_unfold, slice_to_nonneg by exact Hk.
    rewrite length_firstn. lia.
  - apply Forall_forall. intros e He.
    apply in_map_iff in He as ([ch s] & <- & Hin).
    rewrite retrieve_top_k_unfold in Hin. apply slice_In in Hin.
    apply (Permutation_in _ (sort_desc_perm _)) in Hin.
    apply scored_chunks_score in Hin as (Hc & Hs & Hpos).
    split; [simpl; lia|]. exists ch. split; [exact Hc|].
    unfold excerpt_of. simpl. now rewrite Hs.
Qed.

End AnswerAssembler.

Definition echo_model (messages : list message) : llm_outcome :=
  LlmRaises (lit "connection refused").

Lemma answer_question_from_docs_spec_witness :
  answer_question_from_docs (lit "rules") (lit "key") echo_model
    (lit "Cat or DOG") [chunk_cat; chunk_dog; chunk_fish] 1
  = Returned
      (mkReply (lit "Error generating answer: connection refused")
         [mkExcerpt (lit "pets.txt") 1 (lit "A dog and a cat") 2]).
Proof.
  apply (proj1 (answer_question_from_docs_spec (lit "rules") (lit "key")
                  echo_model (lit "Cat or DOG")
                  [chunk_cat; chunk_dog; chunk_fish] 1)).
  discriminate.
Defined.

Lemma answer_question_from_docs_excerpts_witness :
  (Z.of_nat
     (length [mkExcerpt (lit "pets.txt") 1 (lit "A dog and a cat") 2]) <= 1)%Z
  /\ Forall
       (fun e =>
          1 <= ex_score e
          /\ exists ch, In ch [chunk_cat; chunk_dog; chunk_fish]
               /\ e = mkExcerpt (doc_name ch) (chunk_id ch) (text ch)
                        (score_chunk_optimized (tokenize (lit "Cat or DOG"))
                           (lower (text ch))))
       [mkExcerpt (lit "pets.txt") 1 (lit "A dog and a cat") 2].
Proof.
  apply (answer_question_from_docs_excerpts (lit "rules") (lit "key")
           echo_model (lit "Cat or DOG") [chunk_cat; chunk_dog; chunk_fish] 1
           (mkReply (lit "Error generating answer: connection refused")
              [mkExcerpt (lit "pets.txt") 1 (lit "A dog and a cat") 2]));
    [lia | reflexivity].
Defined.

Example context_of_example :
  context_of (retrieve_top_k (lit "Cat or DOG") [chunk_cat; chunk_dog] 2)
  = lit "[Source 1] (Doc: pets.txt): A dog and a cat" ++ newline
    ++ lit "[Source 2] (Doc: pets.txt): The cat sat" ++ newline.
Proof. reflexivity. Qed.
